(** * Verification of the quiz engine of powerbi-quiz-app

    Shallow embedding of the scoring engine ([scoreQuestion]), the seeded
    and unseeded shuffles ([seededShuffle], [shuffleArray]), the cursor
    navigation of the session, the bank merge and the bank import paths.

    Conventions used throughout:
    - JS strings are Rocq [string]s; [===] on strings is [String.eqb] and
      [undefined] is [None].
    - A JS object used as a record of string keys ([Record<string, V>]) is
      an association list; property read [o[k]] is the first binding of [k],
      [Object.keys o] is [map fst o].
    - Point values (JS numbers) are integers ([Z]); every point value the
      code produces from integral inputs is integral.
    - Fields that the TypeScript types declare as required are present;
      fields read with [?.], [??] or [||] are [option]s. *)

From Stdlib Require Import ZArith String List Ascii Bool.
From stdpp Require Import base list gmap strings.

Set Warnings "-register-all".
Open Scope Z_scope.

(* ================================================================= *)
(** ** Scoring engine (part_000, [scoreQuestion]) *)
(* ================================================================= *)
Module Scoring.

Record Choice := mkChoice {
  choice_id : string;
  choice_text : string;
  isCorrect : option bool
}.

Record Scoring := mkScoring {
  mode : option string;
  points : option Z
}.

(** [matrix: { rows; cols; correct }]; rows and columns by their ids. *)
Record Matrix := mkMatrix {
  rows : option (list string);
  cols : list string;
  correct : list (string * string)
}.

(** The union [SingleMulti | MatchQ | OrderQ | MatrixQ | CaseQ] flattened
    into one record; [qtype] is the string tag [q.type] that the switch
    dispatches on. *)
Inductive Question := mkQuestion {
  qid : string;
  qtype : string;
  prompt : string;
  scoring : option Scoring;
  choices : list Choice;
  pairs : option (list (string * string));
  order : list string;
  matrix : Matrix;
  parts : option (list Question)
}.

Inductive SessionAnswer := mkAnswer {
  questionId : string;
  selected : option (list string);
  selectedPairs : option (list (string * string));
  selectedOrder : option (list string);
  selectedMatrix : option (list (string * string));
  aparts : option (list (string * SessionAnswer));
  aisCorrect : option bool;
  score : Z;
  timeSpentSec : Z
}.

(** The value [{ correct, points }] returned by [scoreQuestion]. *)
Record Outcome := mkOutcome {
  ocorrect : bool;
  opoints : Z
}.

(** JS helpers *)
Definition truthy (b : option bool) : bool :=
  match b with Some true => true | _ => false end.

Definition opt_str_eqb (x y : option string) : bool :=
  match x, y with
  | Some a, Some b => String.eqb a b
  | None, None => true
  | _, _ => false
  end.

Fixpoint obj_get {V} (k : string) (o : list (string * V)) : option V :=
  match o with
  | [] => None
  | (k', v) :: o' => if String.eqb k k' then Some v else obj_get k o'
  end.

(** [s.has(x)] on a JS [Set] kept in insertion order. *)
Definition js_has (s : list string) (x : string) : bool :=
  existsb (String.eqb x) s.

(** [new Set(l)]: insertion order, later duplicates dropped. *)
Definition js_set (l : list string) : list string :=
  fold_left (fun acc x => if js_has acc x then acc else acc ++ [x]) l [].

Definition js_join (sep : string) (l : list string) : string :=
  String.concat sep l.

(** [q.scoring?.points ?? d] *)
Definition points_or (q : Question) (d : Z) : Z :=
  match scoring q with
  | Some s => match points s with Some p => p | None => d end
  | None => d
  end.

(** [q.scoring?.mode ?? "all_or_nothing"] *)
Definition mode_of (q : Question) : string :=
  match scoring q with
  | Some s => match mode s with Some m => m | None => "all_or_nothing"%string end
  | None => "all_or_nothing"%string
  end.

(** The body of the [for (const part of cq.parts || [])] loop of the case
    branch: [(total, gained)] threaded through; a part whose scoring
    returns [undefined] makes [res.points] throw ([None]). *)
Fixpoint case_loop (sq : Question -> SessionAnswer -> option Outcome)
    (ans : SessionAnswer) (ps : list Question) (total gained : Z)
    : option (Z * Z) :=
  match ps with
  | [] => Some (total, gained)
  | part :: ps' =>
      let res :=
        match obj_get (qid part) (default [] (aparts ans)) with
        | Some pAns => sq part pAns
        | None => Some (mkOutcome false 0)
        end in
      match res with
      | None => None
      | Some r => case_loop sq ans ps' (total + points_or part 1)
                            (gained + opoints r)
      end
  end.

(** [scoreQuestion q ans]; [None] is the [undefined] returned when the
    switch matches no case, or a [TypeError] thrown inside a case part. *)
Fixpoint scoreQuestion (q : Question) (ans : SessionAnswer) {struct q}
    : option Outcome :=
  let pts := points_or q 1 in
  let md := mode_of q in
  let t := qtype q in
  if String.eqb t "single" then
    let correctId :=
      option_map choice_id (List.find (fun c => truthy (isCorrect c)) (choices q)) in
    let ok :=
      match selected ans with
      | Some sel => Nat.eqb (length sel) 1 && opt_str_eqb (head sel) correctId
      | None => false
      end in
    Some (mkOutcome ok (if ok then pts else 0))
  else if String.eqb t "multi" then
    let correctIds :=
      js_set (map choice_id (filter (fun c => truthy (isCorrect c)) (choices q))) in
    let sel := js_set (default [] (selected ans)) in
    let allCorrect :=
      Nat.eqb (length sel) (length correctIds)
      && forallb (fun id => js_has sel id) correctIds in
    if String.eqb md "all_or_nothing" then
      Some (mkOutcome allCorrect (if allCorrect then pts else 0))
    else
      let sc := fold_left
                  (fun s id => s + (if js_has correctIds id then 1 else -1))
                  sel 0 in
      Some (mkOutcome allCorrect (Z.max 0 (Z.min pts sc)))
  else if String.eqb t "match" then
    let sel := default [] (selectedPairs ans) in
    let ks := map fst (default [] (pairs q)) in
    let allCorrect :=
      forallb (fun k => opt_str_eqb (obj_get k (default [] (pairs q))) (obj_get k sel)) ks in
    Some (mkOutcome allCorrect (if allCorrect then pts else 0))
  else if String.eqb t "order" then
    let sel := default [] (selectedOrder ans) in
    let allCorrect := String.eqb (js_join "|" (order q)) (js_join "|" sel) in
    Some (mkOutcome allCorrect (if allCorrect then pts else 0))
  else if String.eqb t "matrix" then
    let mx := matrix q in
    let sel := default [] (selectedMatrix ans) in
    let rs := default [] (rows mx) in
    let allCorrect :=
      forallb (fun rid => opt_str_eqb (obj_get rid (correct mx)) (obj_get rid sel)) rs in
    Some (mkOutcome allCorrect (if allCorrect then pts else 0))
  else if String.eqb t "case" then
    let loop :=
      match q with
      | mkQuestion _ _ _ _ _ _ _ _ (Some ps) => case_loop scoreQuestion ans ps 0 0
      | mkQuestion _ _ _ _ _ _ _ _ None => case_loop scoreQuestion ans [] 0 0
      end in
    match loop with
    | None => None
    | Some (total, gained) =>
        let ok := (total <=? gained) && (0 <? total) in
        let cap := points_or q total in
        Some (mkOutcome ok (Z.min cap gained))
    end
  else None.

(** Building blocks for concrete inputs. *)
Definition no_matrix : Matrix := mkMatrix None [] [].

Definition mkChoiceQ (id ty : string) (sc : option Scoring) (cs : list Choice)
    : Question :=
  mkQuestion id ty ""%string sc cs None [] no_matrix None.

Definition mkCaseQ (id : string) (sc : option Scoring) (ps : list Question)
    : Question :=
  mkQuestion id "case"%string ""%string sc [] None [] no_matrix (Some ps).

Definition selectAnswer (id : string) (sel : list string) : SessionAnswer :=
  mkAnswer id (Some sel) None None None None None 0 0.

Definition caseAnswer (id : string) (ps : list (string * SessionAnswer))
    : SessionAnswer :=
  mkAnswer id None None None None (Some ps) None 0 0.

(** The parts a case question iterates over: [cq.parts || []]. *)
Definition case_parts (q : Question) : list Question := default [] (parts q).

(** The outcome of one part inside a case: the part scored against its
    own answer, or [{correct:false, points:0}] when unanswered. *)
Definition part_result (ans : SessionAnswer) (part : Question) : option Outcome :=
  match obj_get (qid part) (default [] (aparts ans)) with
  | Some pAns => scoreQuestion part pAns
  | None => Some (mkOutcome false 0)
  end.

(** Each part's own point budget, 1 when unspecified. *)
Definition part_budget (part : Question) : Z := points_or part 1.

(** The six type tags the switch handles. *)
Definition supported_types : list string :=
  ["single"; "multi"; "match"; "order"; "matrix"; "case"]%string.

(** The ids of the choices marked correct, and the ids an answer selects. *)
Definition correct_ids (q : Question) : list string :=
  map choice_id (filter (fun c => truthy (isCorrect c)) (choices q)).

Definition selected_ids (ans : SessionAnswer) : list string :=
  default [] (selected ans).

(** The distinct selected ids that are, and that are not, correct ids. *)
Definition hits (q : Question) (ans : SessionAnswer) : nat :=
  length (filter (fun x => x ∈ correct_ids q) (remove_dups (selected_ids ans))).

Definition misses (q : Question) (ans : SessionAnswer) : nat :=
  length (filter (fun x => x ∉ correct_ids q) (remove_dups (selected_ids ans))).

(** Sum of [f] over a list, in [Z]. *)
Definition zsum {A} (f : A -> Z) (l : list A) : Z :=
  fold_right (fun x s => f x + s) 0 l.

(** The case question of the spec's example: parts worth 1 and 2 points,
    the first answered correctly, the second wrongly. *)
Definition ex_part1 : Question :=
  mkChoiceQ "p1" "single" (Some (mkScoring None (Some 1)))
    [mkChoice "a" "A" (Some true); mkChoice "b" "B" (Some false)].
Definition ex_part2 : Question :=
  mkChoiceQ "p2" "single" (Some (mkScoring None (Some 2)))
    [mkChoice "a" "A" (Some true); mkChoice "b" "B" (Some false)].
Definition ex_case : Question := mkCaseQ "c1" None [ex_part1; ex_part2].
Definition ex_case_ans : SessionAnswer :=
  caseAnswer "c1" [("p1", selectAnswer "p1" ["a"]);
                   ("p2", selectAnswer "p2" ["b"])]%string.

(** The multi-choice question of the spec's example: 3 points, partial
    mode, correct set [{a, c}], selection [{a, b}]. *)
Definition ex_multi : Question :=
  mkChoiceQ "m1" "multi" (Some (mkScoring (Some "partial") (Some 3)))
    [mkChoice "a" "A" (Some true); mkChoice "b" "B" (Some false);
     mkChoice "c" "C" (Some true)].
Definition ex_multi_ans : SessionAnswer := selectAnswer "m1" ["a"; "b"]%string.

(** An id that [join("|")] keeps apart from its neighbours: non-empty and
    without a [|]. *)
Definition order_id_ok (x : string) : Prop :=
  x <> ""%string /\ "|"%char ∉ list_ascii_of_string x.

End Scoring.

(* ================================================================= *)
(** ** Shuffles ([seededShuffle], [mulberry32], [seedFromString] of
    App.tsx; [shuffleArray] of part_000) *)
(* ================================================================= *)
Module Shuffle.

(** JS number-to-integer conversions on integral values. *)
Definition to_uint32 (x : Z) : Z := x mod 2^32.
Definition to_int32 (x : Z) : Z :=
  let u := to_uint32 x in if 2^31 <=? u then u - 2^32 else u.

(** [a ^ b], [a | b], [a >>> n], [Math.imul(a, b)] *)
Definition js_xor (a b : Z) : Z := to_int32 (Z.lxor (to_int32 a) (to_int32 b)).
Definition js_or (a b : Z) : Z := to_int32 (Z.lor (to_int32 a) (to_int32 b)).
Definition js_ushr (a n : Z) : Z := Z.shiftr (to_uint32 a) (n mod 32).
Definition imul (a b : Z) : Z := to_int32 (to_uint32 a * to_uint32 b).

(** One call of the closure returned by [mulberry32(seed)]: the captured
    [seed] after [seed += 0x6D2B79F5] (a JS number, not truncated), and the
    numerator [u] of the returned value [u / 4294967296]. *)
Definition mulberry32_next (seed : Z) : Z * Z :=
  let seed' := seed + 1831565813 in
  let t := seed' in
  let t := imul (js_xor t (js_ushr t 15)) (js_or t 1) in
  let t := js_xor t (t + imul (js_xor t (js_ushr t 7)) (js_or t 61)) in
  (seed', js_ushr (js_xor t (js_ushr t 14)) 0).

(** [seedFromString s]: [n = (n * 31 + s.charCodeAt(i)) >>> 0], then
    [n || 1]; code units are the characters' codes. *)
Definition seedFromString (s : string) : Z :=
  let n := fold_left
             (fun n c => to_uint32 (n * 31 + Z.of_nat (nat_of_ascii c)))
             (list_ascii_of_string s) 0 in
  if n =? 0 then 1 else n.

(** [[a[i], a[j]] = [a[j], a[i]]]: [a[i]] receives the old [a[j]], then
    [a[j]] the old [a[i]]. [None] when an index is past the end: JS would
    then read [undefined] into the array, which is no longer an array of
    the input's elements. The loops below never reach it
    ([seeded_pick_le], [random_pick_le]). *)
Definition swap {A} (a : list A) (i j : nat) : option (list A) :=
  match a !! i, a !! j with
  | Some ai, Some aj => Some (<[j:=ai]> (<[i:=aj]> a))
  | _, _ => None
  end.

(** [for (let i = a.length - 1; i > 0; i--) { const j = pick(i); swap }],
    the random source threaded as an explicit state [st]. *)
Fixpoint fy_loop {A St} (pick : St -> nat -> St * nat) (st : St) (i : nat)
    (a : list A) : option (list A * St) :=
  match i with
  | O => Some (a, st)
  | S i' =>
      let '(st', j) := pick st i in
      match swap a i j with
      | Some a' => fy_loop pick st' i' a'
      | None => None
      end
  end.

(** [j = Math.floor(rnd() * (i + 1))] for the seeded generator; the
    product of [u / 2^32] and [i + 1] is taken exactly (it is exact in
    binary64 for arrays below 2^21 elements). *)
Definition seeded_pick (seed : Z) (i : nat) : Z * nat :=
  let '(seed', u) := mulberry32_next seed in
  (seed', Z.to_nat ((u * Z.of_nat (i + 1)) / 2^32)).

(** [seededShuffle(arr, seedStr)] on the copy [[...arr]]. *)
Definition seededShuffle {A} (arr : list A) (seedStr : string) : option (list A) :=
  option_map fst (fy_loop seeded_pick (seedFromString seedStr) (length arr - 1) arr).

(** [Math.random()] as a stream of draws [k], the value being [k / 2^53];
    [random_pick] consumes the draw at position [pos]. *)
Definition random_pick (rnd : nat -> Z) (pos : nat) (i : nat) : nat * nat :=
  (S pos, Z.to_nat ((rnd pos * Z.of_nat (i + 1)) / 2^53)).

(** [shuffleArray(arr)] on the copy [arr.slice()]. *)
Definition shuffleArray {A} (rnd : nat -> Z) (pos : nat) (arr : list A)
    : option (list A) :=
  option_map fst (fy_loop (random_pick rnd) pos (length arr - 1) arr).

(** The JS store: arrays on a heap of references, and the position of the
    [Math.random] stream. *)
Record World (A : Type) := mkWorld {
  heap : gmap positive (list A);
  rnd : nat -> Z;
  rnd_pos : nat
}.
Arguments mkWorld {A}.
Arguments heap {A}.
Arguments rnd {A}.
Arguments rnd_pos {A}.

(** The loop run in place on the array stored at reference [l]. *)
Fixpoint fy_loop_heap {A St} (pick : St -> nat -> St * nat) (st : St)
    (i : nat) (l : positive) (h : gmap positive (list A))
    : option (gmap positive (list A) * St) :=
  match i with
  | O => Some (h, st)
  | S i' =>
      let '(st', j) := pick st i in
      match h !! l with
      | Some a =>
          match swap a i j with
          | Some a' => fy_loop_heap pick st' i' l (<[l:=a']> h)
          | None => None
          end
      | None => None
      end
  end.

(** [seededShuffle(arr, seedStr)] on the store: the copy [[...arr]] is a
    fresh array, shuffled in place, and returned. *)
Definition seededShuffle_run {A} (w : World A) (arr : positive) (seedStr : string)
    : option (positive * World A) :=
  match heap w !! arr with
  | None => None
  | Some xs =>
      let a := fresh (dom (heap w)) in
      match fy_loop_heap seeded_pick (seedFromString seedStr)
              (length xs - 1) a (<[a:=xs]> (heap w)) with
      | Some (h', _) => Some (a, mkWorld h' (rnd w) (rnd_pos w))
      | None => None
      end
  end.

(** [shuffleArray(arr)] on the store: the copy [arr.slice()] is a fresh
    array, shuffled in place with [Math.random], and returned. *)
Definition shuffleArray_run {A} (w : World A) (arr : positive)
    : option (positive * World A) :=
  match heap w !! arr with
  | None => None
  | Some xs =>
      let copy := fresh (dom (heap w)) in
      match fy_loop_heap (random_pick (rnd w)) (rnd_pos w)
              (length xs - 1) copy (<[copy:=xs]> (heap w)) with
      | Some (h', pos') => Some (copy, mkWorld h' (rnd w) pos')
      | None => None
      end
  end.

(** Stores used as concrete inputs. *)
Definition ex_world : World nat :=
  mkWorld {[1%positive := [10; 20; 30; 40]%nat]} (fun _ => 0) 0%nat.

Definition ex_world' : World nat :=
  mkWorld {[1%positive := [10; 20; 30; 40]%nat; 2%positive := [7]%nat]}
          (fun n => 2^40 + Z.of_nat (n mod 1000)) 5%nat.

End Shuffle.

(* ================================================================= *)
(** ** Session navigation (part_000: [handleCommitAnswer], [goNext],
    [goPrev], [clamp], the question list and the review drawer) *)
(* ================================================================= *)
Module Navigation.
Import Scoring.

Record PersistedSession := mkSession {
  questionOrder : list string;
  answers : list (string * SessionAnswer);
  currentIdx : Z;
  startedAt : Z;
  finished : bool
}.

(** What the handlers read besides the session: the current question
    [qMap[currentId]], the draft [localSel], and the seconds spent. *)
Record Env := mkEnv {
  current : option Question;
  localSel : SessionAnswer;
  spent : Z
}.

Definition clamp (n min max : Z) : Z := Z.max min (Z.min max n).

Definition set_idx (s : PersistedSession) (i : Z) : PersistedSession :=
  mkSession (questionOrder s) (answers s) i (startedAt s) (finished s).

Definition set_answers (s : PersistedSession) (a : list (string * SessionAnswer))
    : PersistedSession :=
  mkSession (questionOrder s) a (currentIdx s) (startedAt s) (finished s).

(** [handleCommitAnswer]: [None] when [scoreQuestion] returns [undefined]
    and [scored.correct] throws. *)
Definition handleCommitAnswer (e : Env) (s : PersistedSession)
    : option PersistedSession :=
  match current e with
  | None => Some s
  | Some q =>
      match scoreQuestion q (localSel e) with
      | None => None
      | Some r =>
          let ls := localSel e in
          let updated :=
            mkAnswer (questionId ls) (selected ls) (selectedPairs ls)
              (selectedOrder ls) (selectedMatrix ls) (aparts ls)
              (Some (ocorrect r)) (opoints r) (timeSpentSec ls + spent e) in
          Some (set_answers s ((qid q, updated) :: answers s))
      end
  end.

(** [goNext] / [goPrev]: the commit, then the clamped move; when the
    commit throws, neither update is applied. *)
Definition goNext (e : Env) (s : PersistedSession) : PersistedSession :=
  match handleCommitAnswer e s with
  | None => s
  | Some s1 =>
      set_idx s1 (clamp (currentIdx s1 + 1) 0
                        (Z.of_nat (length (questionOrder s1)) - 1))
  end.

Definition goPrev (e : Env) (s : PersistedSession) : PersistedSession :=
  match handleCommitAnswer e s with
  | None => s
  | Some s1 =>
      set_idx s1 (clamp (currentIdx s1 - 1) 0
                        (Z.of_nat (length (questionOrder s1)) - 1))
  end.

(** [questionOrder.indexOf(x)] *)
Fixpoint indexOf (x : string) (l : list string) : Z :=
  match l with
  | [] => -1
  | y :: l' =>
      if String.eqb x y then 0
      else let k := indexOf x l' in if k <? 0 then -1 else k + 1
  end.

(** The navigation events: Next and Prev ([n]/[p] keys, buttons, timer
    expiry), a click on entry [i] of the question list, and a click on
    "Jump to" a question of the review drawer. *)
Inductive NavEvent :=
  | Next
  | Prev
  | JumpList (i : nat)
  | JumpReview (x : string).

(** The question list renders one entry per index of [questionOrder]. *)
Definition event_offered (s : PersistedSession) (ev : NavEvent) : Prop :=
  match ev with
  | JumpList i => (i < length (questionOrder s))%nat
  | _ => True
  end.

Definition nav_step (e : Env) (ev : NavEvent) (s : PersistedSession)
    : PersistedSession :=
  match ev with
  | Next => goNext e s
  | Prev => goPrev e s
  | JumpList i => set_idx s (Z.of_nat i)
  | JumpReview x =>
      let idx := indexOf x (questionOrder s) in
      if 0 <=? idx then set_idx s idx else s
  end.

Definition cursor_ok (s : PersistedSession) : Prop :=
  0 <= currentIdx s <= Z.of_nat (length (questionOrder s)) - 1.

(** The session and environment of the witness of C5. *)
Definition ex_session : PersistedSession :=
  mkSession ["q1"; "q2"; "q3"]%string [] 2 0 false.

Definition ex_env : Env := mkEnv None (selectAnswer "q3" []) 0.

End Navigation.

(* ================================================================= *)
(** ** Question banks (App.tsx: [onLoadBank]; part_000:
    [handleImportJSON]) *)
(* ================================================================= *)
Module BankModel.

Record BChoice := mkBChoice {
  bc_id : string;
  bc_text : string;
  bc_correct : bool
}.

(** [type Question] of App.tsx *)
Record BQuestion := mkBQuestion {
  bq_id : string;
  bq_prompt : string;
  bq_choices : list BChoice;
  bq_explanation : option string;
  bq_tags : option (list string)
}.

(** [type Bank]; a bank read with [JSON.parse(text) as Bank] may lack its
    title, hence [option]. *)
Record Bank := mkBank {
  title : option string;
  source : option string;
  version : option string;
  questions : list BQuestion
}.

(** String conversion of [bank.title] in [bank.title + " + "]. *)
Definition js_string_of (o : option string) : string :=
  match o with Some t => t | None => "undefined"%string end.

(** [b.title || "Bank"] *)
Definition title_or_bank (o : option string) : string :=
  match o with
  | Some t => if String.eqb t "" then "Bank"%string else t
  | None => "Bank"%string
  end.

(** The [merge] branch of [onLoadBank]: [ids] starts as the existing ids;
    each incoming question is skipped if [ids.has(q.id)], otherwise pushed
    and its id added to [ids]. *)
Definition merge_step (acc : list BQuestion * list string) (q : BQuestion)
    : list BQuestion * list string :=
  let '(merged, ids) := acc in
  if Scoring.js_has ids (bq_id q) then (merged, ids)
  else (merged ++ [q], ids ++ [bq_id q]).

Definition mergeBank (bank b : Bank) : Bank :=
  let ids := Scoring.js_set (map bq_id (questions bank)) in
  let '(merged, _) := fold_left merge_step (questions b) (questions bank, ids) in
  mkBank (Some (js_string_of (title bank) ++ " + " ++ title_or_bank (title b))%string)
         (source bank) (version bank) merged.

(** Keep each element [x] of [l] for which [P prefix x] holds, [prefix]
    being the elements of [l] before [x]. *)
Fixpoint filter_prefix {A} (P : list A -> A -> Prop)
    `{!forall pre x, Decision (P pre x)} (pre l : list A) : list A :=
  match l with
  | [] => []
  | x :: l' =>
      (if decide (P pre x) then [x] else []) ++ filter_prefix P (pre ++ [x]) l'
  end.

(** JSON values as [JSON.parse] returns them; an object keeps its members
    in source order, and a member read returns the last binding of the
    key. *)
Inductive json :=
  | JNull
  | JBool (b : bool)
  | JNum (n : Z)
  | JStr (s : string)
  | JArr (l : list json)
  | JObj (fields : list (string * json)).

Definition json_get (k : string) (fields : list (string * json)) : option json :=
  Scoring.obj_get k (rev fields).

Inductive LoadError :=
  | TypeErrorOnNull
  | InvalidBankJSON
  | NotAnArray.

Inductive LoadResult :=
  | Rejected (err : LoadError)
  | Accepted (qs : list json).

(** [onLoadBank] up to its check: [b.questions] on the parsed value
    ([null] throws a [TypeError], other non-objects and objects without
    the member give [undefined]), then
    [if (!Array.isArray(b.questions)) throw new Error("Invalid bank JSON")].
    A rejection throws before [setBank], so the state is unchanged; the
    rest of the handler is [BankImport.onLoadBank]. *)
Definition onLoadBank_check (b : json) : LoadResult :=
  match b with
  | JNull => Rejected TypeErrorOnNull
  | JObj fields =>
      match json_get "questions" fields with
      | Some (JArr qs) => Accepted qs
      | _ => Rejected InvalidBankJSON
      end
  | _ => Rejected InvalidBankJSON
  end.

(** [handleImportJSON] up to its check:
    [if (!Array.isArray(arr)) throw new Error("JSON must be an array of questions")];
    a rejection throws before [setRuntimeQuestions]; the rest of the
    handler is [BankImport.handleImportJSON]. *)
Definition handleImportJSON_check (arr : json) : LoadResult :=
  match arr with
  | JArr qs => Accepted qs
  | _ => Rejected NotAnArray
  end.

(** A question-shaped record of the App.tsx bank format. *)
Definition json_question (id : string) : json :=
  JObj [("id", JStr id); ("prompt", JStr "Which view manages relationships?");
        ("choices", JArr [JObj [("id", JStr "a"); ("text", JStr "Model view");
                                ("correct", JBool true)]])]%string.

(** A question with only an id and a prompt. *)
Definition bq (id prompt : string) : BQuestion := mkBQuestion id prompt [] None None.

End BankModel.

(* ================================================================= *)
(** ** Session handlers of part_000 ([toggleSelect], [setMatch],
    [setMatrix], [setPartAnswer], [buildInitialSession], [qMap],
    [totals]) *)
(* ================================================================= *)
Module Session.
Import Scoring Navigation.

(** [{ ...(o || {}), [k]: v }] on a record of string keys: a key already
    present keeps its place and takes the new value, a new key comes
    last. *)
Fixpoint js_obj_set {V} (k : string) (v : V) (o : list (string * V))
    : list (string * V) :=
  match o with
  | [] => [(k, v)]
  | (k', v') :: o' =>
      if String.eqb k k' then (k', v) :: o' else (k', v') :: js_obj_set k v o'
  end.

(** [{ ...prev, selected: sel }] *)
Definition with_selected (prev : SessionAnswer) (sel : list string) : SessionAnswer :=
  mkAnswer (questionId prev) (Some sel) (selectedPairs prev) (selectedOrder prev)
    (selectedMatrix prev) (aparts prev) (aisCorrect prev) (score prev)
    (timeSpentSec prev).

(** [setMatch(leftId, rightId)] applied to [prev]. *)
Definition setMatch (leftId rightId : string) (prev : SessionAnswer) : SessionAnswer :=
  mkAnswer (questionId prev) (selected prev)
    (Some (js_obj_set leftId rightId (default [] (selectedPairs prev))))
    (selectedOrder prev) (selectedMatrix prev) (aparts prev) (aisCorrect prev)
    (score prev) (timeSpentSec prev).

(** [setMatrix(rowId, colId)] applied to [prev]. *)
Definition setMatrix (rowId colId : string) (prev : SessionAnswer) : SessionAnswer :=
  mkAnswer (questionId prev) (selected prev) (selectedPairs prev) (selectedOrder prev)
    (Some (js_obj_set rowId colId (default [] (selectedMatrix prev))))
    (aparts prev) (aisCorrect prev) (score prev) (timeSpentSec prev).

(** [setPartAnswer(partId, ans)] applied to [prev]. *)
Definition setPartAnswer (partId : string) (ans prev : SessionAnswer) : SessionAnswer :=
  mkAnswer (questionId prev) (selected prev) (selectedPairs prev) (selectedOrder prev)
    (selectedMatrix prev) (Some (js_obj_set partId ans (default [] (aparts prev))))
    (aisCorrect prev) (score prev) (timeSpentSec prev).

(** [set.delete(x)] on a JS [Set] kept in insertion order. *)
Definition js_set_delete (s : list string) (x : string) : list string :=
  List.filter (fun y => negb (String.eqb y x)) s.

(** [toggleSelect(choiceId)] applied to [prev], [cur] being [current]. *)
Definition toggleSelect (cur : option Question) (choiceId : string)
    (prev : SessionAnswer) : SessionAnswer :=
  match cur with
  | None => prev
  | Some q =>
      if String.eqb (qtype q) "single" then with_selected prev [choiceId]
      else if String.eqb (qtype q) "multi" then
        let set := js_set (default [] (selected prev)) in
        let set' := if js_has set choiceId then js_set_delete set choiceId
                    else set ++ [choiceId] in
        with_selected prev set'
      else prev
  end.

(** The fields of [Settings] that [buildInitialSession] reads. *)
Record Settings := mkSettings {
  numQuestions : Z;
  shuffleQuestions : bool
}.

(** [l.slice(0, n)] for an integral [n]: a negative end counts from the
    end of the array. *)
Definition js_slice_to {A} (l : list A) (n : Z) : list A :=
  let len := Z.of_nat (length l) in
  let fin := if n <? 0 then Z.max (len + n) 0 else Z.min n len in
  take (Z.to_nat fin) l.

(** [buildInitialSession(pool, s)], with the [Math.random] stream [rnd]
    at position [pos] and [Date.now()] equal to [now]. *)
Definition buildInitialSession (rnd : nat -> Z) (pos : nat) (now : Z)
    (pool : list Question) (s : Settings) : option PersistedSession :=
  let base := if shuffleQuestions s then Shuffle.shuffleArray rnd pos pool
              else Some pool in
  match base with
  | Some b => Some (mkSession (map qid (js_slice_to b (numQuestions s))) [] 0 now false)
  | None => None
  end.

(** [qMap]: [for (const q of filtered) m[q.id] = q]. *)
Definition qMap (filtered : list Question) : gmap string Question :=
  fold_left (fun m q => <[qid q := q]> m) filtered ∅.

(** The points [totals] counts as possible for [q]:
    [q.scoring?.points ?? (q.type === "case" ? parts.reduce(...) : 1)];
    [None] when [(q as CaseQ).parts] is missing and [.reduce] throws. *)
Definition possible_of (q : Question) : option Z :=
  let fallback :=
    if String.eqb (qtype q) "case" then
      match parts q with
      | Some ps => Some (fold_left (fun s p => s + points_or p 1) ps 0)
      | None => None
      end
    else Some 1 in
  match scoring q with
  | Some sc => match points sc with Some p => Some p | None => fallback end
  | None => fallback
  end.

(** The loop of [totals] over [session.questionOrder]: an id missing from
    [qMap] is skipped; [None] when the loop throws. *)
Fixpoint totals_loop (qm : gmap string Question)
    (answers : list (string * SessionAnswer)) (order : list string)
    (gained possible : Z) : option (Z * Z) :=
  match order with
  | [] => Some (gained, possible)
  | id :: rest =>
      match qm !! id with
      | None => totals_loop qm answers rest gained possible
      | Some q =>
          match possible_of q with
          | None => None
          | Some pts =>
              match obj_get id answers with
              | Some ans =>
                  match scoreQuestion q ans with
                  | Some r => totals_loop qm answers rest (gained + opoints r)
                                          (possible + pts)
                  | None => None
                  end
              | None => totals_loop qm answers rest gained (possible + pts)
              end
          end
      end
  end.

Definition totals (qm : gmap string Question) (s : PersistedSession) : option (Z * Z) :=
  totals_loop qm (answers s) (questionOrder s) 0 0.

End Session.

(* ================================================================= *)
(** ** The import handlers past their shape checks (App.tsx:
    [onLoadBank]; part_000: [handleImportJSON], [startNewSession]) *)
(* ================================================================= *)
Module BankImport.
Import BankModel Session.

(** A property read [v.k] on a parsed JSON value: [null.k] throws a
    [TypeError] ([None]); an object reads its member (an absent member is
    [undefined], the inner [None]); other values have no such property. *)
Definition json_prop (k : string) (v : json) : option (option json) :=
  match v with
  | JNull => None
  | JObj fields => Some (json_get k fields)
  | _ => Some None
  end.

(** [l.map(q => q.k)], throwing at the first element whose read throws. *)
Fixpoint map_reads (k : string) (l : list json) : option (list (option json)) :=
  match l with
  | [] => Some []
  | x :: l' =>
      match json_prop k x with
      | None => None
      | Some v => option_map (cons v) (map_reads k l')
      end
  end.

(** [onLoadBank(file, merge)] on the parsed value [b], the bank in state
    being well formed. After the check, merge mode runs
    [for (const q of b.questions) { if (ids.has(q.id)) continue; ... }]:
    every iteration reads [q.id], and [ids.has], [merged.push] and
    [ids.add] cannot throw, so the loop throws exactly when one of these
    reads does; it throws before [setBank]. Replace mode calls
    [setBank(b)] without reading the elements. [Accepted qs]: the handler
    completes, the bank's questions coming from [qs]; [Rejected]: it throws
    before any state change. *)
Definition onLoadBank (merge : bool) (b : json) : LoadResult :=
  match onLoadBank_check b with
  | Rejected e => Rejected e
  | Accepted qs =>
      if merge then
        match map_reads "id" qs with
        | None => Rejected TypeErrorOnNull
        | Some _ => Accepted qs
        end
      else Accepted qs
  end.

(** [buildInitialSession(pool, s)] on parsed JSON elements, up to the
    order it builds: [base.slice(0, s.numQuestions).map(q => q.id)];
    [None] when a read throws. *)
Definition buildInitialSession_json (rnd : nat -> Z) (pos : nat) (pool : list json)
    (s : Settings) : option (list (option json)) :=
  let base := if shuffleQuestions s then Shuffle.shuffleArray rnd pos pool
              else Some pool in
  match base with
  | Some b => map_reads "id" (js_slice_to b (numQuestions s))
  | None => None
  end.

(** The outcomes of [handleImportJSON]: the check throws and the alert is
    shown with nothing changed; [setRuntimeQuestions(arr)] runs and then
    [startNewSession(arr)] throws, so the alert is shown with the runtime
    questions replaced and the session kept; or both run and the session
    is replaced by one with the given order. *)
Inductive ImportResult :=
  | ImportRejected (err : LoadError)
  | ImportStoredThenFailed (qs : list json)
  | ImportAccepted (qs : list json) (order : list (option json)).

(** [handleImportJSON] on the parsed value [arr] with the [settings] in
    state: the check, [setRuntimeQuestions(arr)], then [startNewSession(arr)]
    (which builds the session before [clear] and [setSession]). *)
Definition handleImportJSON (rnd : nat -> Z) (pos : nat) (s : Settings) (arr : json)
    : ImportResult :=
  match handleImportJSON_check arr with
  | Rejected e => ImportRejected e
  | Accepted qs =>
      match buildInitialSession_json rnd pos qs s with
      | None => ImportStoredThenFailed qs
      | Some order => ImportAccepted qs order
      end
  end.

(** The reads of [q.id] the App.tsx render makes on the bank's questions:
    [new Map(bank.questions.map(q => [q.id, q] as const))]. *)
Definition app_qMap_reads (qs : list json) : option (list (option json)) :=
  map_reads "id" qs.

(** [rawQuestions.filter(q => q.difficulty === settings.difficulty)]. *)
Fixpoint filter_difficulty (d : string) (qs : list json) : option (list json) :=
  match qs with
  | [] => Some []
  | q :: qs' =>
      match json_prop "difficulty" q with
      | None => None
      | Some dv =>
          let keep := match dv with Some (JStr x) => String.eqb x d | _ => false end in
          option_map (fun r => if keep then q :: r else r) (filter_difficulty d qs')
      end
  end.

(** The reads the part_000 render makes on the runtime questions: the
    [filtered] memo, then [for (const q of filtered) m[q.id] = q]. *)
Definition part000_render_reads (difficulty : string) (qs : list json)
    : option (list (option json)) :=
  let filtered := if String.eqb difficulty "any" then Some qs
                  else filter_difficulty difficulty qs in
  match filtered with
  | Some f => map_reads "id" f
  | None => None
  end.

End BankImport.

(* ================================================================= *)
(** ** The first quiz component of part_000 ([handleAnswer]) *)
(* ================================================================= *)
Module FirstApp.

Record DQuestion := mkDQuestion {
  dq_id : Z;
  dq_question : string;
  dq_options : list string;
  dq_answer : string;
  dq_objective : string
}.

Definition defaultQuestions : list DQuestion :=
  [mkDQuestion 1 "In Power BI, which view is used to manage relationships between tables?"
     ["Report view"; "Model view"; "Data view"; "Dashboard view"] "Model view" "Modeling";
   mkDQuestion 2 "Which DAX function returns the year from a date value?"
     ["YEAR()"; "DATEYEAR()"; "GETYEAR()"; "YEARS()"] "YEAR()" "DAX"]%string.

Record QuizState := mkQuiz {
  cur : nat;
  qscore : Z;
  qfinished : bool;
  qanswers : list (Z * string)
}.

Definition quiz_init : QuizState := mkQuiz 0 0 false [].

(** [handleAnswer(option)], the clicked [option] being [opt]; [None] when
    [q] is [undefined] and [q.id] throws. *)
Definition handleAnswer (qs : list DQuestion) (st : QuizState) (opt : string)
    : option QuizState :=
  match qs !! cur st with
  | None => None
  | Some q =>
      let answers' := (dq_id q, opt) :: qanswers st in
      let score' := if String.eqb opt (dq_answer q) then qscore st + 1
                    else qscore st in
      if (cur st + 1 <? length qs)%nat then
        Some (mkQuiz (S (cur st)) score' (qfinished st) answers')
      else Some (mkQuiz (cur st) score' true answers')
  end.

(** A sequence of clicks on option buttons; the buttons are only rendered
    while the quiz is not finished. *)
Fixpoint quiz_run (qs : list DQuestion) (st : QuizState) (opts : list string)
    : option QuizState :=
  match opts with
  | [] => Some st
  | o :: os =>
      if qfinished st then Some st
      else match handleAnswer qs st o with
           | Some st' => quiz_run qs st' os
           | None => None
           end
  end.

(** The number of positions where the clicked option is the answer. *)
Definition matches (qs : list DQuestion) (opts : list string) : nat :=
  length (List.filter (fun p => String.eqb (snd p) (dq_answer (fst p))) (combine qs opts)).

End FirstApp.

(* ================================================================= *)
(** ** The trainer of App.tsx ([start], [choose], [toggleFlag],
    [coverage], [startDrill], the index buttons, the exam timer) *)
(* ================================================================= *)
Module Trainer.
Import BankModel.

Record Attempt := mkAttempt {
  a_questionId : string;
  choiceIds : list string;
  a_isCorrect : bool;
  flagged : option bool
}.

Inductive Mode := Practice | Exam.

(** The state the handlers write: [order], [index], [attempts],
    [started], [timerMs], [paused]. *)
Record TState := mkT {
  t_order : list string;
  t_index : Z;
  t_attempts : gmap string Attempt;
  t_started : bool;
  t_timerMs : Z;
  t_paused : bool
}.

(** [questionOrder]: the bank's ids, shuffled with [seed + "::Q"] when
    [randomizeQ]. *)
Definition questionOrder (bank : Bank) (randomizeQ : bool) (seed : string)
    : option (list string) :=
  let ids := map bq_id (questions bank) in
  if randomizeQ then Shuffle.seededShuffle ids (seed ++ "::Q")%string else Some ids.

(** [start()] *)
Definition start (bank : Bank) (randomizeQ : bool) (seed : string) (mode : Mode)
    (durationMin : Z) (st : TState) : option TState :=
  match questionOrder bank randomizeQ seed with
  | None => None
  | Some qo =>
      Some (mkT qo 0 ∅ true
              (match mode with Exam => durationMin * 60 * 1000 | Practice => t_timerMs st end)
              (match mode with Exam => false | Practice => t_paused st end))
  end.

(** [choose(cid)] on [attempts], [current] being [questionsView[index]]. *)
Definition choose (current : option BQuestion) (cid : string)
    (attempts : gmap string Attempt) : gmap string Attempt :=
  match current with
  | None => attempts
  | Some q =>
      let isCorrect :=
        match List.find (fun c => String.eqb (bc_id c) cid) (bq_choices q) with
        | Some c => bc_correct c
        | None => false
        end in
      let fl := match attempts !! bq_id q with Some a => flagged a | None => None end in
      <[bq_id q := mkAttempt (bq_id q) [cid] isCorrect fl]> attempts
  end.

(** [!!x] on an optional boolean. *)
Definition truthy (b : option bool) : bool :=
  match b with Some true => true | _ => false end.

(** [toggleFlag()] on [attempts]. *)
Definition toggleFlag (current : option BQuestion) (attempts : gmap string Attempt)
    : gmap string Attempt :=
  match current with
  | None => attempts
  | Some q =>
      let a := default (mkAttempt (bq_id q) [] false None) (attempts !! bq_id q) in
      <[bq_id q := mkAttempt (a_questionId a) (choiceIds a) (a_isCorrect a)
                              (Some (negb (truthy (flagged a))))]> attempts
  end.

(** [Object.values(attempts)], up to order. *)
Definition attempt_values (attempts : gmap string Attempt) : list Attempt :=
  map snd (map_to_list attempts).

(** [answeredCount], [correctCount] and the length of [incorrectList]. *)
Definition answeredCount (attempts : gmap string Attempt) : nat :=
  length (map_to_list attempts).

Definition correctCount (attempts : gmap string Attempt) : nat :=
  length (List.filter a_isCorrect (attempt_values attempts)).

Definition incorrectCount (attempts : gmap string Attempt) : nat :=
  length (List.filter (fun a => negb (a_isCorrect a)) (attempt_values attempts)).

(** One step of the inner loop of [coverage]: tag [t] of question [q]. *)
Definition cov_step (attempts : gmap string Attempt) (q : BQuestion)
    (m : gmap string (Z * Z)) (t : string) : gmap string (Z * Z) :=
  let '(tot, cor) := default (0, 0) (m !! t) in
  let cor' := match attempts !! bq_id q with
              | Some a => if a_isCorrect a then cor + 1 else cor
              | None => cor
              end in
  <[t := (tot + 1, cor')]> m.

(** [coverage]: tag -> [(total, correct)]. *)
Definition coverage (qs : list BQuestion) (attempts : gmap string Attempt)
    : gmap string (Z * Z) :=
  fold_left (fun m q => fold_left (cov_step attempts q) (default [] (bq_tags q)) m) qs ∅.

(** The number of occurrences of [t] in the tag lists of [qs]. *)
Definition tag_occ (t : string) (qs : list BQuestion) : nat :=
  length (List.filter (String.eqb t) (concat (map (fun q => default [] (bq_tags q)) qs))).

(** The questions whose attempt is correct. *)
Definition answered_correctly (attempts : gmap string Attempt) (q : BQuestion) : bool :=
  match attempts !! bq_id q with Some a => a_isCorrect a | None => false end.

(** The ids of the questions carrying one of [tags]. *)
Definition drill_ids (bank : Bank) (tags : list string) : list string :=
  map bq_id (List.filter
               (fun q => existsb (fun t => Scoring.js_has tags t) (default [] (bq_tags q)))
               (questions bank)).

(** [startDrill(tags)] *)
Definition startDrill (bank : Bank) (randomizeQ : bool) (seed : string) (mode : Mode)
    (durationMin : Z) (tags : list string) (st : TState) : option TState :=
  match drill_ids bank tags with
  | [] => Some st
  | ids =>
      let seq := if randomizeQ then Shuffle.seededShuffle ids (seed ++ "::DRILL")%string
                 else Some ids in
      match seq with
      | None => None
      | Some sq =>
          Some (mkT sq 0 ∅ true
                  (match mode with Exam => durationMin * 60 * 1000 | Practice => t_timerMs st end)
                  (match mode with Exam => false | Practice => t_paused st end))
      end
  end.

(** The ids the question grid and the jump lists index into:
    [order.length ? order : questionsView.map(q => q.id)]; its length is
    [totalQuestions]. *)
Definition grid_ids (order viewIds : list string) : list string :=
  match order with [] => viewIds | _ => order end.

(** The index buttons: First, Prev, Next, a grid cell, and a jump from
    the incorrect or flagged list to the question of an attempt. *)
Inductive TNavEvent :=
  | TFirst
  | TPrev
  | TNext
  | TGrid (i : nat)
  | TJumpAttempt (id : string).

Definition tnav_step (order viewIds : list string) (ev : TNavEvent) (i : Z) : Z :=
  let ids := grid_ids order viewIds in
  let totalQuestions := Z.of_nat (length ids) in
  match ev with
  | TFirst => 0
  | TPrev => Z.max 0 (i - 1)
  | TNext => Z.min (totalQuestions - 1) (i + 1)
  | TGrid k => Z.of_nat k
  | TJumpAttempt id => Navigation.indexOf id ids
  end.

(** The grid renders one cell per id; the jump lists hold the attempts'
    question ids. *)
Definition tnav_offered (order viewIds : list string) (ev : TNavEvent) : Prop :=
  match ev with
  | TGrid k => (k < length (grid_ids order viewIds))%nat
  | TJumpAttempt id => id ∈ grid_ids order viewIds
  | _ => True
  end.

(** One tick of the exam timer: [ms => Math.max(0, ms - 1000)]. *)
Definition tick (ms : Z) : Z := Z.max 0 (ms - 1000).

(** The number of occurrences of [t] in the tag lists of the questions of
    [qs] whose attempt is correct. *)
Definition tag_correct (t : string) (attempts : gmap string Attempt)
    (qs : list BQuestion) : nat :=
  length (List.filter (String.eqb t)
            (concat (map (fun q => if answered_correctly attempts q
                                   then default [] (bq_tags q) else []) qs))).

(** The id of [current = questionsView[index]]: [questionsView] maps
    [questionOrder] (the memo, not the [order] state) through [qMap], each
    entry keeping the id it was looked up with; a negative index reads
    [undefined]. *)
Definition current_id (bank : Bank) (randomizeQ : bool) (seed : string)
    (st : TState) : option string :=
  match questionOrder bank randomizeQ seed with
  | None => None
  | Some qo => if t_index st <? 0 then None else qo !! Z.to_nat (t_index st)
  end.

End Trainer.

(* ================================================================= *)
(** ** Scoring: lemmas *)
(* ================================================================= *)
Module ScoringFacts.
Import Scoring.

Lemma case_loop_Forall2 ans ps rs t g :
  Forall2 (fun p r => part_result ans p = Some r) ps rs ->
  case_loop scoreQuestion ans ps t g
  = Some (t + zsum part_budget ps, g + zsum opoints rs).
Proof.
  intros H. revert t g.
  induction H as [|p r ps rs Hpr _ IH]; intros t g; simpl.
  - by rewrite !Z.add_0_r.
  - unfold part_result in Hpr. rewrite Hpr, IH.
    unfold part_budget. f_equal. f_equal; lia.
Qed.

Lemma find_all_false {A} (f : A -> bool) (l : list A) :
  Forall (fun x => f x = false) l -> List.find f l = None.
Proof.
  induction 1 as [|x l Hx _ IH]; simpl; [done|]. by rewrite Hx.
Qed.

Lemma js_has_spec (s : list string) x : js_has s x = true <-> x ∈ s.
Proof.
  unfold js_has. rewrite existsb_exists, list_elem_of_In. split.
  - intros (y & Hy & Heq). apply String.eqb_eq in Heq. by subst.
  - intros Hx. exists x. split; [done|]. apply String.eqb_refl.
Qed.

Lemma js_set_fold_spec (l acc : list string) :
  NoDup acc ->
  NoDup (fold_left (fun acc x => if js_has acc x then acc else acc ++ [x]) l acc)
  /\ (forall y, y ∈ fold_left (fun acc x => if js_has acc x then acc else acc ++ [x]) l acc
                <-> y ∈ acc \/ y ∈ l).
Proof.
  revert acc. induction l as [|x l IH]; intros acc Hnd; simpl.
  - split; [done|]. set_solver.
  - destruct (js_has acc x) eqn:Hx.
    + apply js_has_spec in Hx. destruct (IH acc Hnd) as [H1 H2].
      split; [done|]. intros y. rewrite H2. set_solver.
    + assert (x ∉ acc) as Hn.
      { intros Hin. apply js_has_spec in Hin. congruence. }
      assert (NoDup (acc ++ [x])) as Hnd'.
      { apply NoDup_app. split; [done|]. split; [set_solver|].
        apply NoDup_singleton. }
      destruct (IH _ Hnd') as [H1 H2]. split; [done|].
      intros y. rewrite H2. set_solver.
Qed.

Lemma js_set_NoDup l : NoDup (js_set l).
Proof. apply (js_set_fold_spec l []). constructor. Qed.

Lemma elem_of_js_set l y : y ∈ js_set l <-> y ∈ l.
Proof.
  unfold js_set. rewrite (proj2 (js_set_fold_spec l [] (NoDup_nil_2))).
  set_solver.
Qed.

Lemma fold_left_zsum {A} (f : A -> Z) (l : list A) s0 :
  fold_left (fun s x => s + f x) l s0 = s0 + zsum f l.
Proof.
  revert s0. induction l as [|x l IH]; intros s0; simpl; [lia|].
  rewrite IH. lia.
Qed.

Lemma zsum_Permutation {A} (f : A -> Z) (l k : list A) :
  l ≡ₚ k -> zsum f l = zsum f k.
Proof. induction 1; simpl; lia. Qed.

Lemma zsum_pm1 (P : string -> Prop) `{!∀ x, Decision (P x)} (l : list string) :
  zsum (fun x => if decide (P x) then 1 else -1) l
  = Z.of_nat (length (filter P l)) - Z.of_nat (length (filter (fun x => ~ P x) l)).
Proof.
  induction l as [|x l IH]; simpl; [done|].
  rewrite !filter_cons. rewrite IH.
  destruct (decide (P x)); destruct (decide (~ P x)); simpl; try tauto; lia.
Qed.

(** The [allCorrect] test of the multi branch is set equality. *)
Lemma all_correct_spec (S C : list string) :
  (Nat.eqb (length (js_set S)) (length (js_set C))
   && forallb (fun id => js_has (js_set S) id) (js_set C)) = true
  <-> (forall x, x ∈ S <-> x ∈ C).
Proof.
  rewrite andb_true_iff, Nat.eqb_eq, forallb_forall. split.
  - intros [Hlen Hall].
    assert (js_set C ⊆+ js_set S) as Hsub.
    { apply NoDup_submseteq; [apply js_set_NoDup|].
      intros y Hy. apply js_has_spec, Hall, list_elem_of_In, Hy. }
    apply submseteq_length_Permutation in Hsub; [|lia].
    intros x. rewrite <- (elem_of_js_set S), <- (elem_of_js_set C).
    by rewrite Hsub.
  - intros Heq.
    assert (js_set S ≡ₚ js_set C) as Hp.
    { apply NoDup_Permutation; [apply js_set_NoDup | apply js_set_NoDup|].
      intros x. rewrite !elem_of_js_set. apply Heq. }
    split; [by apply Permutation_length|].
    intros y Hy. apply js_has_spec. rewrite Hp. by apply list_elem_of_In.
Qed.

Lemma zsum_ext {A} (f g : A -> Z) (l : list A) :
  (forall x, f x = g x) -> zsum f l = zsum g l.
Proof. intros H. induction l as [|x l IH]; simpl; [done|]. by rewrite H, IH. Qed.

(** The raw partial score of the multi branch counts the distinct selected
    ids that are correct (+1) and that are not (-1). *)
Lemma partial_sum_spec (S C : list string) :
  fold_left (fun s id => s + (if js_has (js_set C) id then 1 else -1))
            (js_set S) 0
  = Z.of_nat (length (filter (fun x => x ∈ C) (remove_dups S)))
    - Z.of_nat (length (filter (fun x => x ∉ C) (remove_dups S))).
Proof.
  rewrite (fold_left_zsum (fun id => if js_has (js_set C) id then 1 else -1)).
  rewrite (zsum_ext _ (fun x => if decide (x ∈ C) then 1 else -1)).
  - rewrite (zsum_Permutation _ (js_set S) (remove_dups S)).
    + rewrite zsum_pm1. lia.
    + apply NoDup_Permutation; [apply js_set_NoDup | apply NoDup_remove_dups|].
      intros x. by rewrite elem_of_js_set, elem_of_remove_dups.
  - intros x. destruct (decide (x ∈ C)) as [Hin|Hin].
    + rewrite <- elem_of_js_set, <- js_has_spec in Hin. by rewrite Hin.
    + destruct (js_has (js_set C) x) eqn:Hx; [|done].
      exfalso. apply Hin, elem_of_js_set, js_has_spec, Hx.
Qed.

Ltac not_supported H :=
  exfalso; apply H; unfold supported_types; set_solver.

End ScoringFacts.

(* ================================================================= *)
(** ** Claims about the scoring engine *)
(* ================================================================= *)
Section ScoringClaims.
Import Scoring ScoringFacts.

(** C1 (counterexample): a case question with no parts has total 0 and
    gained 0, so gained >= total, yet its correct flag is false. *)
Lemma case_empty_not_correct :
  let q := mkCaseQ "c0" None [] in
  zsum part_budget (case_parts q) <= 0
  /\ scoreQuestion q (caseAnswer "c0" []) = Some (mkOutcome false 0).
Proof. split; reflexivity. Qed.

(** C1 (amended): for a case question whose parts all score (each part is
    scored against its own answer, an unanswered part counts as
    [{correct:false, points:0}]), the correct flag is
    [gained >= total && total > 0] and the points are [min(cap, gained)],
    where [total] sums the parts' budgets (1 when unspecified), [gained]
    sums the parts' points and [cap] is the case's own points, [total]
    when undeclared. *)
Theorem case_score_aggregates (q : Question) (ans : SessionAnswer)
    (rs : list Outcome) :
  qtype q = "case"%string ->
  Forall2 (fun p r => part_result ans p = Some r) (case_parts q) rs ->
  let total := zsum part_budget (case_parts q) in
  let gained := zsum opoints rs in
  scoreQuestion q ans
  = Some (mkOutcome ((total <=? gained) && (0 <? total))
                    (Z.min (points_or q total) gained)).
Proof.
  intros Hty Hparts total gained.
  destruct q as [id ty pr sc cs prs ord mx [ps|]]; simpl in Hty; subst ty;
    unfold case_parts in *; simpl in Hparts, total.
  - cbn -[case_loop points_or].
    rewrite (case_loop_Forall2 ans ps rs 0 0 Hparts). reflexivity.
  - inversion Hparts; subst. reflexivity.
Qed.

(** Witness of C1: the spec's example yields [{correct:false, points:1}]. *)
Lemma case_score_aggregates_witness :
  scoreQuestion ex_case ex_case_ans = Some (mkOutcome false 1).
Proof.
  rewrite (case_score_aggregates ex_case ex_case_ans
             [mkOutcome true 1; mkOutcome false 0]).
  - reflexivity.
  - reflexivity.
  - repeat constructor.
Defined.

(** C8 (counterexample): a question whose type tag is not handled by the
    switch is scored as [undefined], not as [{correct:false, points:0}]. *)
Lemma unknown_type_not_zero_result :
  let q := mkChoiceQ "q9" "essay" None [] in
  scoreQuestion q (selectAnswer "q9" []) = None
  /\ scoreQuestion q (selectAnswer "q9" []) <> Some (mkOutcome false 0).
Proof. split; [reflexivity | discriminate]. Qed.

(** C8 (amended): for every question whose type tag is none of single,
    multi, match, order, matrix, case, and every answer, [scoreQuestion]
    matches no case of its switch and returns [undefined]. *)
Theorem unknown_type_undefined (q : Question) (ans : SessionAnswer) :
  qtype q ∉ supported_types -> scoreQuestion q ans = None.
Proof.
  intros H. destruct q as [id ty pr sc cs prs ord mx ps]; simpl in H.
  cbn [scoreQuestion qtype].
  destruct (String.eqb_spec ty "single") as [->|_]; [not_supported H|].
  destruct (String.eqb_spec ty "multi") as [->|_]; [not_supported H|].
  destruct (String.eqb_spec ty "match") as [->|_]; [not_supported H|].
  destruct (String.eqb_spec ty "order") as [->|_]; [not_supported H|].
  destruct (String.eqb_spec ty "matrix") as [->|_]; [not_supported H|].
  destruct (String.eqb_spec ty "case") as [->|_]; [not_supported H|].
  reflexivity.
Qed.

Lemma unknown_type_undefined_witness :
  (("essay"%string) ∉ supported_types)
  /\ scoreQuestion (mkChoiceQ "q9" "essay" None []) (selectAnswer "q9" ["a"])
     = None.
Proof.
  split.
  - unfold supported_types. set_solver.
  - apply unknown_type_undefined. unfold supported_types. simpl. set_solver.
Defined.

(** C2: in partial mode a multi-choice question awards
    [clamp(#correct selected - #incorrect selected, 0, points)] over the
    distinct selected ids, while its correct flag holds iff the selected
    id set equals the correct id set. *)
Theorem multi_partial_score (q : Question) (ans : SessionAnswer) :
  qtype q = "multi"%string ->
  mode_of q <> "all_or_nothing"%string ->
  exists c,
    scoreQuestion q ans
    = Some (mkOutcome c (Z.max 0 (Z.min (points_or q 1)
                          (Z.of_nat (hits q ans) - Z.of_nat (misses q ans)))))
    /\ (c = true <-> forall x, x ∈ selected_ids ans <-> x ∈ correct_ids q).
Proof.
  intros Hty Hmode.
  destruct q as [id ty pr sc cs prs ord mx ps]; simpl in Hty; subst ty.
  cbn [scoreQuestion qtype String.eqb Ascii.eqb Bool.eqb].
  apply String.eqb_neq in Hmode. rewrite Hmode.
  eexists. split.
  - do 4 f_equal. unfold hits, misses, selected_ids, correct_ids. simpl.
    apply partial_sum_spec.
  - rewrite all_correct_spec. reflexivity.
Qed.

(** Witness of C2: the spec's example yields [{correct:false, points:0}]. *)
Lemma multi_partial_score_witness :
  scoreQuestion ex_multi ex_multi_ans = Some (mkOutcome false 0).
Proof.
  destruct (multi_partial_score ex_multi ex_multi_ans) as (c & Heq & Hc).
  - reflexivity.
  - discriminate.
  - rewrite Heq. destruct c.
    + exfalso. pose proof (proj1 Hc eq_refl "b"%string) as Hb.
      assert (("b"%string) ∈ correct_ids ex_multi) as Hin.
      { apply Hb. unfold selected_ids. simpl. set_solver. }
      revert Hin. unfold correct_ids. simpl. set_solver.
    + vm_compute. reflexivity.
Defined.

(** C10: a single-choice question with no choice marked correct scores
    [{correct:false, points:0}] for every answer. *)
Theorem single_no_correct_choice (q : Question) (ans : SessionAnswer) :
  qtype q = "single"%string ->
  Forall (fun c => truthy (isCorrect c) = false) (choices q) ->
  scoreQuestion q ans = Some (mkOutcome false 0).
Proof.
  intros Hty Hnone.
  destruct q as [id ty pr sc cs prs ord mx ps]; simpl in Hty, Hnone; subst ty.
  cbn [scoreQuestion qtype choices String.eqb Ascii.eqb Bool.eqb].
  rewrite (find_all_false _ _ Hnone). simpl.
  destruct (selected ans) as [[|s [|s' sel]]|]; reflexivity.
Qed.

Lemma single_no_correct_choice_witness :
  scoreQuestion
    (mkChoiceQ "q1" "single" None
       [mkChoice "a" "A" None; mkChoice "b" "B" (Some false)])
    (selectAnswer "q1" ["a"]) = Some (mkOutcome false 0).
Proof.
  apply single_no_correct_choice; [reflexivity|].
  repeat constructor.
Defined.

End ScoringClaims.

(* ================================================================= *)
(** ** Shuffles: lemmas *)
(* ================================================================= *)
Module ShuffleFacts.
Import Shuffle.

Lemma to_uint32_range x : 0 <= to_uint32 x < 2^32.
Proof. unfold to_uint32. apply Z.mod_pos_bound. lia. Qed.

Lemma mulberry32_next_range seed : 0 <= snd (mulberry32_next seed) < 2^32.
Proof.
  unfold mulberry32_next, js_ushr. simpl. rewrite Z.shiftr_0_r.
  apply to_uint32_range.
Qed.

Lemma floor_scale_le (u bound : Z) (i : nat) :
  0 < bound -> 0 <= u < bound ->
  (Z.to_nat ((u * Z.of_nat (i + 1)) / bound) <= i)%nat.
Proof.
  intros Hb Hu.
  assert ((u * Z.of_nat (i + 1)) / bound < Z.of_nat (i + 1)).
  { apply Z.div_lt_upper_bound; [lia|]. nia. }
  assert (0 <= (u * Z.of_nat (i + 1)) / bound).
  { apply Z.div_pos; nia. }
  lia.
Qed.

(** The seeded index [j] never exceeds [i]. *)
Lemma seeded_pick_le seed i : (snd (seeded_pick seed i) <= i)%nat.
Proof.
  unfold seeded_pick. pose proof (mulberry32_next_range seed) as Hr.
  destruct (mulberry32_next seed) as [seed' u]. simpl in *.
  apply floor_scale_le; lia.
Qed.

(** The [Math.random] index [j] never exceeds [i] when every draw is a
    value of [[0, 1)]. *)
Lemma random_pick_le (rnd : nat -> Z) :
  (forall n, 0 <= rnd n < 2^53) ->
  forall pos i, (snd (random_pick rnd pos i) <= i)%nat.
Proof. intros Hr pos i. unfold random_pick. simpl. apply floor_scale_le; [lia|apply Hr]. Qed.

Section Generic.
Context {A St : Type}.
Implicit Types (a : list A) (pick : St -> nat -> St * nat).

Lemma swap_ok a i j :
  (j <= i)%nat -> (i < length a)%nat ->
  exists a', swap a i j = Some a' /\ a' ≡ₚ a.
Proof.
  intros Hji Hi. unfold swap.
  destruct (lookup_lt_is_Some_2 a i Hi) as [ai Hai].
  destruct (lookup_lt_is_Some_2 a j ltac:(lia)) as [aj Haj].
  rewrite Hai, Haj. eexists. split; [reflexivity|].
  by apply Permutation_insert_swap.
Qed.

(** With every index [j] within [[0, i]], the loop runs to completion and
    only permutes the array. *)
Lemma fy_loop_ok pick st i a :
  (forall st k, (snd (pick st k) <= k)%nat) ->
  (i < length a \/ i = 0)%nat ->
  exists a' st', fy_loop pick st i a = Some (a', st') /\ a' ≡ₚ a.
Proof.
  intros Hpick. revert st a. induction i as [|i IH]; intros st a Hi; simpl.
  - eauto.
  - pose proof (Hpick st (S i)) as Hj.
    destruct (pick st (S i)) as [st' j]; simpl in Hj.
    destruct (swap_ok a (S i) j) as (a' & Hs & Hp); [lia|lia|].
    rewrite Hs.
    destruct (IH st' a') as (a'' & st'' & Hl & Hp').
    { apply Permutation_length in Hp. lia. }
    exists a'', st''. split; [done|]. by rewrite Hp'.
Qed.

Lemma fy_loop_heap_spec pick st i l a (h : gmap positive (list A)) :
  fy_loop_heap pick st i l (<[l:=a]> h)
  = option_map (fun p => (<[l:=fst p]> h, snd p)) (fy_loop pick st i a).
Proof.
  revert st a. induction i as [|i IH]; intros st a; simpl; [done|].
  destruct (pick st (S i)) as [st' j].
  rewrite lookup_insert_eq.
  destruct (swap a (S i) j) as [a'|]; [|done].
  by rewrite insert_insert_eq, IH.
Qed.

End Generic.

Lemma fresh_ne {A} (h : gmap positive (list A)) l xs :
  h !! l = Some xs -> fresh (dom h) <> l.
Proof.
  intros H Heq. apply (is_fresh (dom h)). rewrite Heq.
  apply elem_of_dom. by exists xs.
Qed.

Lemma seededShuffle_spec {A} (xs : list A) s :
  exists ys st, fy_loop seeded_pick (seedFromString s) (length xs - 1) xs
                = Some (ys, st)
  /\ seededShuffle xs s = Some ys /\ ys ≡ₚ xs.
Proof.
  destruct (fy_loop_ok seeded_pick (seedFromString s) (length xs - 1) xs)
    as (ys & st & Hl & Hp).
  - intros. apply seeded_pick_le.
  - lia.
  - exists ys, st. unfold seededShuffle. rewrite Hl. done.
Qed.

Lemma shuffleArray_spec {A} (rnd : nat -> Z) pos (xs : list A) :
  (forall n, 0 <= rnd n < 2^53) ->
  exists ys pos', fy_loop (random_pick rnd) pos (length xs - 1) xs
                  = Some (ys, pos')
  /\ shuffleArray rnd pos xs = Some ys /\ ys ≡ₚ xs.
Proof.
  intros Hr.
  destruct (fy_loop_ok (random_pick rnd) pos (length xs - 1) xs)
    as (ys & pos' & Hl & Hp).
  - apply random_pick_le, Hr.
  - lia.
  - exists ys, pos'. unfold shuffleArray. rewrite Hl. done.
Qed.

Lemma seededShuffle_run_spec {A} (w : World A) l xs s :
  heap w !! l = Some xs ->
  exists ys,
    seededShuffle xs s = Some ys
    /\ seededShuffle_run w l s
       = Some (fresh (dom (heap w)),
               mkWorld (<[fresh (dom (heap w)) := ys]> (heap w))
                       (rnd w) (rnd_pos w)).
Proof.
  intros H. destruct (seededShuffle_spec xs s) as (ys & st & Hl & Hs & _).
  exists ys. split; [done|].
  unfold seededShuffle_run. rewrite H. cbv zeta.
  rewrite fy_loop_heap_spec, Hl. reflexivity.
Qed.

Lemma shuffleArray_run_spec {A} (w : World A) l xs :
  (forall n, 0 <= rnd w n < 2^53) ->
  heap w !! l = Some xs ->
  exists ys pos',
    shuffleArray (rnd w) (rnd_pos w) xs = Some ys
    /\ shuffleArray_run w l
       = Some (fresh (dom (heap w)),
               mkWorld (<[fresh (dom (heap w)) := ys]> (heap w)) (rnd w) pos').
Proof.
  intros Hr H.
  destruct (shuffleArray_spec (rnd w) (rnd_pos w) xs Hr) as (ys & pos' & Hl & Hs & _).
  exists ys, pos'. split; [done|].
  unfold shuffleArray_run. rewrite H. cbv zeta.
  rewrite fy_loop_heap_spec, Hl. reflexivity.
Qed.

End ShuffleFacts.

(* ================================================================= *)
(** ** Claims about the shuffles *)
(* ================================================================= *)
Section ShuffleClaims.
Import Shuffle ShuffleFacts.

(** C3: [seededShuffle] is deterministic. Two invocations with the same
    seed string on arrays holding the same elements return arrays holding
    the same elements, whatever the rest of the store and the position of
    the [Math.random] stream (so also for two back-to-back calls on one
    array, which the first call leaves intact, see C9). *)
Theorem seededShuffle_deterministic {A} (w1 w2 : World A) (l1 l2 : positive)
    (xs : list A) (s : string) :
  heap w1 !! l1 = Some xs -> heap w2 !! l2 = Some xs ->
  exists o1 v1 o2 v2,
    seededShuffle_run w1 l1 s = Some (o1, v1)
    /\ seededShuffle_run w2 l2 s = Some (o2, v2)
    /\ heap v1 !! o1 = heap v2 !! o2.
Proof.
  intros H1 H2.
  destruct (seededShuffle_run_spec w1 l1 xs s H1) as (ys1 & Hs1 & Hr1).
  destruct (seededShuffle_run_spec w2 l2 xs s H2) as (ys2 & Hs2 & Hr2).
  rewrite Hr1, Hr2. do 4 eexists. split; [reflexivity|]. split; [reflexivity|].
  simpl. rewrite !lookup_insert_eq. congruence.
Qed.

Lemma seededShuffle_deterministic_witness :
  exists o1 v1 o2 v2,
    seededShuffle_run ex_world 1%positive "PL300-1::Q" = Some (o1, v1)
    /\ seededShuffle_run ex_world' 1%positive "PL300-1::Q" = Some (o2, v2)
    /\ heap v1 !! o1 = heap v2 !! o2.
Proof.
  apply (seededShuffle_deterministic ex_world ex_world' 1%positive 1%positive
           [10; 20; 30; 40]%nat "PL300-1::Q"); reflexivity.
Defined.

(** C4: for every input array and every seed, [seededShuffle] returns a
    permutation of its input (same multiset of elements, same length); so
    does [shuffleArray] for every [Math.random] stream of values in
    [[0, 1)]. *)
Theorem shuffle_permutation {A} (xs : list A) (s : string)
    (rnd : nat -> Z) (pos : nat) :
  (forall n, 0 <= rnd n < 2^53) ->
  (exists ys, seededShuffle xs s = Some ys /\ ys ≡ₚ xs /\ length ys = length xs)
  /\ (exists ys, shuffleArray rnd pos xs = Some ys /\ ys ≡ₚ xs
                 /\ length ys = length xs).
Proof.
  intros Hr. split.
  - destruct (seededShuffle_spec xs s) as (ys & _ & _ & Hs & Hp).
    exists ys. repeat split; [done|done|]. by apply Permutation_length.
  - destruct (shuffleArray_spec rnd pos xs Hr) as (ys & _ & _ & Hs & Hp).
    exists ys. repeat split; [done|done|]. by apply Permutation_length.
Qed.

Lemma shuffle_permutation_witness :
  (exists ys, seededShuffle [1; 2; 3; 4]%nat "seed" = Some ys
              /\ ys ≡ₚ [1; 2; 3; 4]%nat /\ length ys = 4%nat)
  /\ (exists ys, shuffleArray (fun _ => 2^52) 0 [1; 2; 3; 4]%nat = Some ys
                 /\ ys ≡ₚ [1; 2; 3; 4]%nat /\ length ys = 4%nat).
Proof.
  apply (shuffle_permutation [1; 2; 3; 4]%nat "seed" (fun _ => 2^52) 0).
  intros n. lia.
Defined.

(** C9: neither shuffle mutates its input. After [seededShuffle] (and
    after [shuffleArray]) the input array still holds the same elements in
    the same order; the result is a fresh array, and no other array of the
    store changes. *)
Theorem shuffles_preserve_input {A} (w : World A) (l : positive)
    (xs : list A) (s : string) :
  (forall n, 0 <= rnd w n < 2^53) ->
  heap w !! l = Some xs ->
  (exists o w', seededShuffle_run w l s = Some (o, w')
     /\ (o ∉ dom (heap w)) /\ heap w' !! l = Some xs
     /\ heap w' !! o = seededShuffle xs s
     /\ (forall k, k <> o -> heap w' !! k = heap w !! k))
  /\ (exists o w', shuffleArray_run w l = Some (o, w')
     /\ (o ∉ dom (heap w)) /\ heap w' !! l = Some xs
     /\ heap w' !! o = shuffleArray (rnd w) (rnd_pos w) xs
     /\ (forall k, k <> o -> heap w' !! k = heap w !! k)).
Proof.
  intros Hr H. pose proof (fresh_ne (heap w) l xs H) as Hne. split.
  - destruct (seededShuffle_run_spec w l xs s H) as (ys & Hs & Hrun).
    rewrite Hrun. do 2 eexists. split; [reflexivity|]. simpl.
    split; [apply is_fresh|].
    split; [by rewrite lookup_insert_ne|].
    split; [by rewrite lookup_insert_eq|].
    intros k Hk. by rewrite lookup_insert_ne.
  - destruct (shuffleArray_run_spec w l xs Hr H) as (ys & pos' & Hs & Hrun).
    rewrite Hrun. do 2 eexists. split; [reflexivity|]. simpl.
    split; [apply is_fresh|].
    split; [by rewrite lookup_insert_ne|].
    split; [by rewrite lookup_insert_eq|].
    intros k Hk. by rewrite lookup_insert_ne.
Qed.

Lemma shuffles_preserve_input_witness :
  (exists o w', seededShuffle_run ex_world' 1%positive "PL300-1" = Some (o, w')
     /\ (o ∉ dom (heap ex_world')) /\ heap w' !! 1%positive = Some [10; 20; 30; 40]%nat
     /\ heap w' !! o = seededShuffle [10; 20; 30; 40]%nat "PL300-1"
     /\ (forall k, k <> o -> heap w' !! k = heap ex_world' !! k))
  /\ (exists o w', shuffleArray_run ex_world' 1%positive = Some (o, w')
     /\ (o ∉ dom (heap ex_world')) /\ heap w' !! 1%positive = Some [10; 20; 30; 40]%nat
     /\ heap w' !! o = shuffleArray (rnd ex_world') (rnd_pos ex_world') [10; 20; 30; 40]%nat
     /\ (forall k, k <> o -> heap w' !! k = heap ex_world' !! k)).
Proof.
  apply (shuffles_preserve_input ex_world' 1%positive [10; 20; 30; 40]%nat "PL300-1").
  - intros n. unfold ex_world'. simpl. lia.
  - reflexivity.
Defined.

End ShuffleClaims.

(* ================================================================= *)
(** ** Navigation: lemmas and claims *)
(* ================================================================= *)
Module NavigationFacts.
Import Scoring Navigation.

Lemma commit_keeps_cursor e s s1 :
  handleCommitAnswer e s = Some s1 ->
  questionOrder s1 = questionOrder s /\ currentIdx s1 = currentIdx s.
Proof.
  unfold handleCommitAnswer.
  destruct (current e) as [q|]; [|intros [= <-]; done].
  destruct (scoreQuestion q (localSel e)); [|discriminate].
  intros [= <-]. done.
Qed.

Lemma indexOf_range x l : -1 <= indexOf x l <= Z.of_nat (length l) - 1.
Proof.
  induction l as [|y l IH]; simpl; [lia|].
  destruct (String.eqb x y); [lia|].
  destruct (indexOf x l <? 0) eqn:E; [lia|].
  apply Z.ltb_ge in E. lia.
Qed.

End NavigationFacts.

Section NavigationClaims.
Import Scoring Navigation NavigationFacts.

(** C5: from a session whose cursor lies in [[0, len(questionOrder) - 1]],
    Next, Prev, a question-list click and a review-drawer jump all leave
    the cursor in that range (and the order unchanged); Next at the last
    index leaves the cursor where it is, and Prev at index 0 leaves it
    at 0. *)
Theorem nav_preserves_cursor (e : Env) (ev : NavEvent) (s : PersistedSession) :
  cursor_ok s -> event_offered s ev ->
  cursor_ok (nav_step e ev s)
  /\ questionOrder (nav_step e ev s) = questionOrder s
  /\ (ev = Next -> currentIdx s = Z.of_nat (length (questionOrder s)) - 1 ->
      currentIdx (nav_step e ev s) = currentIdx s)
  /\ (ev = Prev -> currentIdx s = 0 -> currentIdx (nav_step e ev s) = 0).
Proof.
  unfold cursor_ok. intros Hok Hoff.
  destruct ev as [| |i|x]; simpl in Hoff |- *.
  - unfold goNext. destruct (handleCommitAnswer e s) as [s1|] eqn:Hc;
      [|repeat split; try done; lia].
    destruct (commit_keeps_cursor e s s1 Hc) as [Ho Hi].
    simpl. rewrite Ho, Hi. unfold clamp.
    repeat split; try lia; discriminate.
  - unfold goPrev. destruct (handleCommitAnswer e s) as [s1|] eqn:Hc;
      [|repeat split; try done; lia].
    destruct (commit_keeps_cursor e s s1 Hc) as [Ho Hi].
    simpl. rewrite Ho, Hi. unfold clamp.
    repeat split; try lia; discriminate.
  - repeat split; try lia; discriminate.
  - pose proof (indexOf_range x (questionOrder s)).
    destruct (0 <=? indexOf x (questionOrder s)) eqn:E; simpl.
    + apply Z.leb_le in E. repeat split; try lia; discriminate.
    + repeat split; try lia; discriminate.
Qed.

Lemma nav_preserves_cursor_witness :
  cursor_ok ex_session /\ currentIdx (nav_step ex_env Next ex_session) = 2.
Proof.
  split; [unfold cursor_ok; simpl; lia|].
  destruct (nav_preserves_cursor ex_env Next ex_session) as (_ & _ & Hnext & _).
  - unfold cursor_ok. simpl. lia.
  - exact I.
  - apply Hnext; reflexivity.
Defined.

End NavigationClaims.

(* ================================================================= *)
(** ** Banks: lemmas and claims *)
(* ================================================================= *)
Module BankFacts.
Import BankModel.

Lemma merge_fold_spec (idsA : list string) (qs m pre : list BQuestion)
    (ids : list string) :
  (forall x, x ∈ ids <-> x ∈ idsA \/ x ∈ map bq_id pre) ->
  fst (fold_left merge_step qs (m, ids))
  = m ++ filter_prefix (fun pre q => (bq_id q ∉ idsA) /\ (bq_id q ∉ map bq_id pre))
                       pre qs.
Proof.
  revert m pre ids. induction qs as [|q qs IH]; intros m pre ids Hids; simpl.
  - by rewrite app_nil_r.
  - destruct (Scoring.js_has ids (bq_id q)) eqn:Hq.
    + apply ScoringFacts.js_has_spec in Hq.
      rewrite decide_False by (rewrite Hids in Hq; tauto).
      simpl. apply IH. intros x. rewrite Hids, map_app. simpl. set_solver.
    + assert (bq_id q ∉ ids) as Hn.
      { intros Hin. apply ScoringFacts.js_has_spec in Hin. congruence. }
      rewrite decide_True by (rewrite Hids in Hn; tauto).
      rewrite (IH (m ++ [q]) (pre ++ [q]) (ids ++ [bq_id q])).
      * by rewrite <- app_assoc.
      * intros x. rewrite map_app. simpl. set_solver.
Qed.

End BankFacts.

Module ImportFacts.
Import BankModel Session BankImport.

Lemma json_prop_None k v : json_prop k v = None <-> v = JNull.
Proof. destruct v; simpl; split; congruence. Qed.

Lemma map_reads_None k l : map_reads k l = None <-> JNull ∈ l.
Proof.
  induction l as [|x l IH]; simpl.
  - split; [discriminate|]. intros H. by apply elem_of_nil in H.
  - rewrite elem_of_cons. destruct (json_prop k x) as [v|] eqn:E.
    + assert (x <> JNull) by (intros ->; discriminate).
      destruct (map_reads k l); simpl; rewrite <- IH; intuition congruence.
    + apply json_prop_None in E. subst x. tauto.
Qed.

Lemma filter_difficulty_None d l : filter_difficulty d l = None <-> JNull ∈ l.
Proof.
  induction l as [|x l IH]; simpl.
  - split; [discriminate|]. intros H. by apply elem_of_nil in H.
  - rewrite elem_of_cons. destruct (json_prop "difficulty" x) as [v|] eqn:E.
    + assert (x <> JNull) by (intros ->; discriminate).
      destruct (filter_difficulty d l); simpl; rewrite <- IH; intuition congruence.
    + apply json_prop_None in E. subst x. tauto.
Qed.

Lemma filter_difficulty_sub d l f x :
  filter_difficulty d l = Some f -> x ∈ f -> x ∈ l.
Proof.
  revert f. induction l as [|y l IH]; intros f; simpl.
  - intros [= <-] H. by apply elem_of_nil in H.
  - destruct (json_prop "difficulty" y) as [v|]; [|discriminate].
    destruct (filter_difficulty d l) as [r|]; [|discriminate].
    intros [= <-] Hx. apply elem_of_cons.
    destruct (match v with Some (JStr x0) => String.eqb x0 d | _ => false end).
    + apply elem_of_cons in Hx as [->|Hx]; [by left|right; by apply (IH r)].
    + right. by apply (IH r).
Qed.

Lemma onLoadBank_check_Accepted j qs :
  onLoadBank_check j = Accepted qs
  <-> exists fields, j = JObj fields /\ json_get "questions" fields = Some (JArr qs).
Proof.
  destruct j as [| | | | l | fields]; simpl;
    try (split; [discriminate|intros (? & ? & _); discriminate]).
  split.
  - destruct (json_get "questions" fields) as [[| | | | l |]|] eqn:E;
      try discriminate. intros [= <-]. eauto.
  - intros (f & [= <-] & ->). reflexivity.
Qed.

Lemma part000_render_reads_None d l : part000_render_reads d l = None <-> JNull ∈ l.
Proof.
  unfold part000_render_reads. destruct (String.eqb d "any").
  - apply map_reads_None.
  - destruct (filter_difficulty d l) as [f|] eqn:E.
    + rewrite map_reads_None. split.
      * intros H. by apply (filter_difficulty_sub d l f).
      * intros H. exfalso. assert (filter_difficulty d l = None) as H'
          by (by apply filter_difficulty_None). congruence.
    + split; [intros _; by apply (filter_difficulty_None d l)|done].
Qed.

End ImportFacts.

Section BankClaims.
Import BankModel BankFacts Session BankImport ImportFacts.

(** C6 (counterexample): when the incoming bank holds two questions with
    the same new id, only the first is appended, whereas "every question
    of B whose id is absent from A" names both. *)
Lemma merge_duplicate_incoming_id :
  let A := mkBank (Some "A") None None [bq "q1" "one"] in
  let B := mkBank (Some "B") None None [bq "n" "first"; bq "n" "second"] in
  questions (mergeBank A B) = [bq "q1" "one"; bq "n" "first"]
  /\ filter (fun q => bq_id q ∉ map bq_id (questions A)) (questions B)
     = [bq "n" "first"; bq "n" "second"].
Proof. split; reflexivity. Qed.

(** The spec's example: B holds one id already in A and one new id;
    exactly one question is appended and A's question is unchanged. *)
Lemma merge_example :
  let A := mkBank (Some "A") None None [bq "q1" "one"; bq "q2" "two"] in
  let B := mkBank (Some "B") None None [bq "q2" "other two"; bq "q3" "three"] in
  questions (mergeBank A B) = [bq "q1" "one"; bq "q2" "two"; bq "q3" "three"]
  /\ title (mergeBank A B) = Some "A + B"%string.
Proof. split; reflexivity. Qed.

(** C6 (amended): merging B into A keeps A's questions as they are, in
    their positions, and appends, in B's order, each question of B whose
    id is absent from A and from every earlier question of B; the title is
    A's title, [" + "], and B's title ("Bank" when B's is missing or
    empty); A's source and version are kept. *)
Theorem merge_appends_first_new (A B : Bank) :
  questions (mergeBank A B)
  = questions A
    ++ filter_prefix
         (fun pre q => (bq_id q ∉ map bq_id (questions A))
                       /\ (bq_id q ∉ map bq_id pre))
         [] (questions B)
  /\ title (mergeBank A B)
     = Some (js_string_of (title A) ++ " + " ++ title_or_bank (title B))%string
  /\ source (mergeBank A B) = source A
  /\ version (mergeBank A B) = version A.
Proof.
  unfold mergeBank.
  pose proof (merge_fold_spec (map bq_id (questions A)) (questions B)
                (questions A) []
                (Scoring.js_set (map bq_id (questions A)))) as H.
  destruct (fold_left merge_step (questions B)
              (questions A, Scoring.js_set (map bq_id (questions A))))
    as [merged ids] eqn:E.
  simpl in H |- *. repeat split; try reflexivity.
  apply H. intros x. rewrite ScoringFacts.elem_of_js_set. set_solver.
Qed.

(** C7 (counterexample): [onLoadBank] rejects a bare array of
    question-shaped records; [handleImportJSON] rejects an object with a
    [questions] array; a [questions] array holding [null] is rejected by a
    merge, while [handleImportJSON] on [[null]] replaces the runtime
    questions before it fails; and [onLoadBank] completes on a [questions]
    array whose element is not a question-shaped record. *)
Lemma bank_import_counterexample :
  onLoadBank false (JArr [json_question "q1"]) = Rejected InvalidBankJSON
  /\ handleImportJSON (fun _ => 0) 0 (mkSettings 10 false)
       (JObj [("questions", JArr [json_question "q1"])]%string)
     = ImportRejected NotAnArray
  /\ onLoadBank true (JObj [("questions", JArr [JNull])]%string) = Rejected TypeErrorOnNull
  /\ handleImportJSON (fun _ => 0) 0 (mkSettings 10 false) (JArr [JNull])
     = ImportStoredThenFailed [JNull]
  /\ onLoadBank false (JObj [("questions", JArr [JNum 1])]%string) = Accepted [JNum 1].
Proof. repeat split. Qed.

(** C7 (amended): [onLoadBank] completes exactly on the JSON objects whose
    [questions] member is an array [qs], in merge mode only when no
    element of [qs] is [null] (the loop reads [q.id]); on every other value,
    bare arrays included, it throws before any state change. It does not
    check the elements otherwise; a [null] element makes the render's
    question map throw. [handleImportJSON] alerts with nothing changed
    exactly on the values that are not arrays, objects with a [questions]
    array included. On an array it first replaces the runtime questions,
    then reads [q.id] of the first [numQuestions] elements of the array
    (shuffled when [shuffleQuestions]): when one of them is [null] it
    alerts with the session kept, otherwise it replaces the session; a
    [null] element anywhere makes the render's [filtered]/[qMap] throw. *)
Theorem bank_import_shapes (merge : bool) (rnd : nat -> Z) (pos : nat) (s : Settings)
    (j : json) (qs : list json) :
  (forall n, 0 <= rnd n < 2^53) ->
  (onLoadBank merge j = Accepted qs
   <-> (exists fields, j = JObj fields /\ json_get "questions" fields = Some (JArr qs))
       /\ (merge = true -> JNull ∉ qs))
  /\ (app_qMap_reads qs = None <-> JNull ∈ qs)
  /\ ((exists e, handleImportJSON rnd pos s j = ImportRejected e) <-> forall l, j <> JArr l)
  /\ (j = JArr qs ->
      exists b, (if shuffleQuestions s then Shuffle.shuffleArray rnd pos qs else Some qs) = Some b
      /\ b ≡ₚ qs
      /\ (handleImportJSON rnd pos s j = ImportStoredThenFailed qs
          <-> JNull ∈ js_slice_to b (numQuestions s))
      /\ ((exists order, handleImportJSON rnd pos s j = ImportAccepted qs order)
          <-> JNull ∉ js_slice_to b (numQuestions s)))
  /\ (forall d, part000_render_reads d qs = None <-> JNull ∈ qs).
Proof.
  intros Hr. split; [|split; [apply map_reads_None|split; [|split]]].
  - unfold onLoadBank. rewrite <- onLoadBank_check_Accepted.
    destruct (onLoadBank_check j) as [e|l].
    + split; [discriminate|intros (? & _); discriminate].
    + split.
      * destruct merge.
        -- destruct (map_reads "id" l) eqn:Em; [|discriminate].
           intros [= <-]. split; [done|]. intros _ Hn.
           apply (proj2 (map_reads_None "id" l)) in Hn. congruence.
        -- intros [= <-]. split; [done|discriminate].
      * intros ([= <-] & Hn). destruct merge; [|done].
        destruct (map_reads "id" l) eqn:Em; [done|].
        apply (proj1 (map_reads_None "id" l)) in Em. by destruct (Hn eq_refl).
  - unfold handleImportJSON. destruct j as [| | | | l |]; simpl;
      try (split; [intros _ l' ?; discriminate|eauto]).
    split.
    + intros (e & He). by destruct (buildInitialSession_json rnd pos l s).
    + intros H. by destruct (H l).
  - intros ->. unfold handleImportJSON, buildInitialSession_json. simpl.
    destruct (shuffleQuestions s).
    + destruct (ShuffleFacts.shuffleArray_spec rnd pos qs Hr) as (ys & pos' & _ & Hsh & Hp).
      exists ys. rewrite Hsh. split; [done|]. split; [done|].
      rewrite <- (map_reads_None "id").
      destruct (map_reads "id" (js_slice_to ys (numQuestions s))).
      * split; [split; discriminate|split; [intros _ ?; discriminate|eauto]].
      * split; [done|split; [intros (o & ?); discriminate|intros H; by destruct H]].
    + exists qs. split; [done|]. split; [done|].
      rewrite <- (map_reads_None "id").
      destruct (map_reads "id" (js_slice_to qs (numQuestions s))).
      * split; [split; discriminate|split; [intros _ ?; discriminate|eauto]].
      * split; [done|split; [intros (o & ?); discriminate|intros H; by destruct H]].
  - intros d. apply part000_render_reads_None.
Qed.

(** A [questions] array holding [null] before a question: the merge is
    rejected, and importing the array with one question per session fails
    after replacing the runtime questions. *)
Lemma bank_import_shapes_witness :
  onLoadBank true (JObj [("questions", JArr [JNull; json_question "q1"])]%string)
  <> Accepted [JNull; json_question "q1"]
  /\ handleImportJSON (fun _ => 0) 0 (mkSettings 1 false) (JArr [JNull; json_question "q1"])
     = ImportStoredThenFailed [JNull; json_question "q1"].
Proof.
  split.
  - destruct (bank_import_shapes true (fun _ => 0) 0 (mkSettings 1 false)
                (JObj [("questions", JArr [JNull; json_question "q1"])]%string)
                [JNull; json_question "q1"]) as (H1 & _).
    + intros n. lia.
    + intros Ha. apply H1 in Ha as (_ & Hn). apply Hn; [reflexivity|].
      apply elem_of_cons. left. reflexivity.
  - destruct (bank_import_shapes true (fun _ => 0) 0 (mkSettings 1 false)
                (JArr [JNull; json_question "q1"]) [JNull; json_question "q1"])
      as (_ & _ & _ & H4 & _).
    + intros n. lia.
    + destruct (H4 eq_refl) as (b & Hb & _ & H & _).
      cbn [shuffleQuestions] in Hb. injection Hb as <-.
      apply H. vm_compute. apply elem_of_cons. left. reflexivity.
Defined.

End BankClaims.

(* ================================================================= *)
(** ** Further properties of the scoring engine *)
(* ================================================================= *)
Module ScoringMore.
Import Scoring.

Lemma las_app (s1 s2 : string) :
  list_ascii_of_string (s1 ++ s2) = list_ascii_of_string s1 ++ list_ascii_of_string s2.
Proof. induction s1 as [|a s1 IH]; simpl; [done|]. by rewrite IH. Qed.

Lemma las_inj (s1 s2 : string) :
  list_ascii_of_string s1 = list_ascii_of_string s2 -> s1 = s2.
Proof.
  intros H. rewrite <- (string_of_list_ascii_of_string s1),
                   <- (string_of_list_ascii_of_string s2), H. done.
Qed.

(** Splitting at the first separator. *)
Lemma app_sep_inj (c : ascii) (x y r1 r2 : list ascii) :
  c ∉ x -> c ∉ y ->
  (r1 = [] \/ exists r, r1 = c :: r) -> (r2 = [] \/ exists r, r2 = c :: r) ->
  x ++ r1 = y ++ r2 -> x = y /\ r1 = r2.
Proof.
  revert y. induction x as [|a x IH]; intros [|b y] Hx Hy H1 H2 Heq; simpl in *.
  - done.
  - exfalso. destruct H1 as [->|[r ->]]; [discriminate|].
    injection Heq as -> _. apply Hy. left.
  - exfalso. destruct H2 as [->|[r ->]]; [discriminate|].
    injection Heq as -> _. apply Hx. left.
  - injection Heq as -> Heq.
    destruct (IH y) as [-> ->]; [set_solver|set_solver|done|done|done|done].
Qed.

Lemma append_empty_r (s : string) : (s ++ "")%string = s.
Proof.
  induction s as [|a s IH]; [reflexivity|].
  change (String a (s ++ "") = String a s)%string. by rewrite IH.
Qed.

Lemma concat_cons (sep x : string) (l : list string) :
  String.concat sep (x :: l)
  = (x ++ match l with [] => "" | _ => sep ++ String.concat sep l end)%string.
Proof. destruct l; simpl; [by rewrite append_empty_r|done]. Qed.

(** [join("|")] is injective on non-empty ids without a [|]. *)
Lemma join_inj (l1 l2 : list string) :
  Forall order_id_ok l1 -> Forall order_id_ok l2 ->
  js_join "|" l1 = js_join "|" l2 -> l1 = l2.
Proof.
  unfold js_join. revert l2.
  induction l1 as [|x l1 IH]; intros [|y l2] H1 H2 Heq.
  - done.
  - exfalso. apply Forall_cons in H2 as [[Hy _] _].
    rewrite concat_cons in Heq. apply (f_equal list_ascii_of_string) in Heq.
    rewrite las_app in Heq. simpl in Heq.
    destruct y; [done|discriminate].
  - exfalso. apply Forall_cons in H1 as [[Hx _] _].
    rewrite concat_cons in Heq. apply (f_equal list_ascii_of_string) in Heq.
    rewrite las_app in Heq. simpl in Heq.
    destruct x; [done|discriminate].
  - apply Forall_cons in H1 as [[_ Hx] H1]. apply Forall_cons in H2 as [[_ Hy] H2].
    rewrite !concat_cons in Heq. apply (f_equal list_ascii_of_string) in Heq.
    rewrite !las_app in Heq.
    apply app_sep_inj with (c := "|"%char) in Heq as [Hxy Hr]; [| done | done | |].
    + apply las_inj in Hxy. subst y. f_equal.
      destruct l1 as [|x1 l1], l2 as [|y1 l2]; try done.
      simpl in Hr. injection Hr as Hr.
      apply IH; [done|done|]. apply las_inj. exact Hr.
    + destruct l1; [by left|]. right. simpl. rewrite las_app. simpl. eauto.
    + destruct l2; [by left|]. right. simpl. rewrite las_app. simpl. eauto.
Qed.

End ScoringMore.

Section ScoringExtras.
Import Scoring ScoringMore.

(** Extra (scoreQuestion, single): a single question is answered
    correctly exactly when the selection is the one id of the first
    choice marked correct; a later choice also marked correct is scored
    as wrong. *)
Theorem single_first_correct_only (q : Question) (ans : SessionAnswer) :
  qtype q = "single"%string ->
  exists ok, scoreQuestion q ans = Some (mkOutcome ok (if ok then points_or q 1 else 0))
  /\ (ok = true <-> exists c, List.find (fun c => truthy (isCorrect c)) (choices q) = Some c
                              /\ selected ans = Some [choice_id c]).
Proof.
  intros Ht. destruct q as [id t pr sc cs prs ord mx ps]. cbn [qtype] in Ht. subst t.
  simpl. eexists; split; [reflexivity|].
  destruct (selected ans) as [sel|].
  - destruct (List.find _ cs) as [c|] eqn:Hf.
    + split.
      * intros H. apply andb_true_iff in H as [Hl Hh]. apply Nat.eqb_eq in Hl.
        destruct sel as [|x [|]]; simpl in *; try discriminate.
        apply String.eqb_eq in Hh. subst. eauto.
      * intros (c' & [= <-] & [= ->]). simpl. apply String.eqb_refl.
    + split; [|intros (c' & ? & _); discriminate].
      intros H. destruct sel as [|x [|]]; simpl in H; discriminate.
  - split; [discriminate|]. intros (? & _ & ?); discriminate.
Qed.

(** Extra (scoreQuestion, order): when every id of the key and of the
    selection is non-empty and free of [|], an order question is
    answered correctly exactly when the selected order equals the key
    (the comparison of the two [join("|")] strings is then exact). *)
Theorem order_check_exact (q : Question) (ans : SessionAnswer) :
  qtype q = "order"%string ->
  Forall order_id_ok (order q) -> Forall order_id_ok (default [] (selectedOrder ans)) ->
  exists ok, scoreQuestion q ans = Some (mkOutcome ok (if ok then points_or q 1 else 0))
  /\ (ok = true <-> order q = default [] (selectedOrder ans)).
Proof.
  intros Ht H1 H2. destruct q as [id t pr sc cs prs ord mx ps]. cbn [qtype order] in *.
  subst t. simpl. eexists; split; [reflexivity|].
  rewrite String.eqb_eq. split.
  - apply join_inj; done.
  - intros ->. reflexivity.
Qed.

(** Extra (scoreQuestion, match and matrix): a match question with no
    pairs (missing or empty) and a matrix question with no rows (missing
    or empty) score as correct with full points for every answer,
    including an empty one. *)
Theorem unchecked_match_matrix_full_marks (q : Question) (ans : SessionAnswer) :
  (qtype q = "match"%string /\ default [] (pairs q) = [])
  \/ (qtype q = "matrix"%string /\ default [] (rows (matrix q)) = []) ->
  scoreQuestion q ans = Some (mkOutcome true (points_or q 1)).
Proof.
  intros [[Ht Hp]|[Ht Hr]]; destruct q as [id t pr sc cs prs ord mx ps];
    cbn [qtype pairs matrix] in *; subst t.
  - destruct prs as [[|]|]; simpl in Hp; try discriminate; reflexivity.
  - destruct mx as [[[|]|] cols cor]; simpl in Hr; try discriminate; reflexivity.
Qed.

End ScoringExtras.

(* ================================================================= *)
(** ** Session handlers: lemmas *)
(* ================================================================= *)
Module SessionFacts.
Import Scoring Session.

Lemma obj_get_set_eq {V} k (v : V) o : obj_get k (js_obj_set k v o) = Some v.
Proof.
  induction o as [|[k' v'] o IH]; simpl.
  - by rewrite String.eqb_refl.
  - destruct (String.eqb k k') eqn:E; simpl; rewrite E; [done|apply IH].
Qed.

Lemma obj_get_set_ne {V} k k' (v : V) o :
  k' <> k -> obj_get k' (js_obj_set k v o) = obj_get k' o.
Proof.
  intros Hne. induction o as [|[k0 v0] o IH]; simpl.
  - destruct (String.eqb k' k) eqn:E; [apply String.eqb_eq in E; congruence|done].
  - destruct (String.eqb k k0) eqn:E; simpl.
    + apply String.eqb_eq in E. subst k0.
      destruct (String.eqb k' k) eqn:E'; [apply String.eqb_eq in E'; congruence|done].
    + destruct (String.eqb k' k0); [done|apply IH].
Qed.

Lemma obj_get_fold_notin {V} (kvs : list (string * V)) o k :
  k ∉ map fst kvs ->
  obj_get k (fold_left (fun o kv => js_obj_set (fst kv) (snd kv) o) kvs o) = obj_get k o.
Proof.
  revert o. induction kvs as [|[k0 v0] kvs IH]; intros o Hk; simpl in *; [done|].
  rewrite IH by set_solver. apply obj_get_set_ne. set_solver.
Qed.

Lemma obj_get_fold_in {V} (kvs : list (string * V)) o k :
  k ∈ map fst kvs ->
  exists v, (k, v) ∈ kvs
  /\ obj_get k (fold_left (fun o kv => js_obj_set (fst kv) (snd kv) o) kvs o) = Some v.
Proof.
  revert o. induction kvs as [|[k0 v0] kvs IH]; intros o Hk; simpl in *; [set_solver|].
  destruct (decide (k ∈ map fst kvs)) as [Hin|Hin].
  - destruct (IH (js_obj_set k0 v0 o) Hin) as (v & Hv & Hg).
    exists v. split; [set_solver|done].
  - assert (k = k0) as -> by set_solver. exists v0. split; [set_solver|].
    rewrite obj_get_fold_notin by done. apply obj_get_set_eq.
Qed.

Lemma obj_get_NoDup {V} (kvs : list (string * V)) k v :
  NoDup (map fst kvs) -> (k, v) ∈ kvs -> obj_get k kvs = Some v.
Proof.
  induction kvs as [|[k0 v0] kvs IH]; simpl; intros Hnd Hin; [set_solver|].
  apply NoDup_cons in Hnd as [Hn Hnd].
  apply elem_of_cons in Hin as [[= -> ->]|Hin].
  - by rewrite String.eqb_refl.
  - destruct (String.eqb k k0) eqn:E.
    + apply String.eqb_eq in E. subst. exfalso. apply Hn.
      apply list_elem_of_In, in_map_iff. exists (k0, v). split; [done|].
      by apply list_elem_of_In.
    + auto.
Qed.

Lemma selectedPairs_fold (prs : list (string * string)) prev :
  default [] (selectedPairs (fold_left (fun a kv => setMatch (fst kv) (snd kv) a) prs prev))
  = fold_left (fun o kv => js_obj_set (fst kv) (snd kv) o) prs (default [] (selectedPairs prev)).
Proof.
  revert prev. induction prs as [|[k v] prs IH]; intros prev; simpl; [done|].
  by rewrite IH.
Qed.

Lemma selectedMatrix_fold (sets : list (string * string)) prev :
  default [] (selectedMatrix (fold_left (fun a rc => setMatrix (fst rc) (snd rc) a) sets prev))
  = fold_left (fun o kv => js_obj_set (fst kv) (snd kv) o) sets (default [] (selectedMatrix prev)).
Proof.
  revert prev. induction sets as [|[k v] sets IH]; intros prev; simpl; [done|].
  by rewrite IH.
Qed.

Lemma score_match_eq q ans :
  qtype q = "match"%string ->
  let ok := forallb (fun k => opt_str_eqb (obj_get k (default [] (pairs q)))
                                          (obj_get k (default [] (selectedPairs ans))))
                    (map fst (default [] (pairs q))) in
  scoreQuestion q ans = Some (mkOutcome ok (if ok then points_or q 1 else 0)).
Proof. intros Ht. destruct q. cbn [qtype] in Ht. subst. reflexivity. Qed.

Lemma score_matrix_eq q ans :
  qtype q = "matrix"%string ->
  let ok := forallb (fun rid => opt_str_eqb (obj_get rid (correct (matrix q)))
                                            (obj_get rid (default [] (selectedMatrix ans))))
                    (default [] (rows (matrix q))) in
  scoreQuestion q ans = Some (mkOutcome ok (if ok then points_or q 1 else 0)).
Proof. intros Ht. destruct q. cbn [qtype] in Ht. subst. reflexivity. Qed.

Lemma opt_str_eqb_refl o : opt_str_eqb o o = true.
Proof. destruct o; simpl; [apply String.eqb_refl|done]. Qed.

Lemma elem_of_js_set_delete s x y : y ∈ js_set_delete s x <-> y ∈ s /\ y <> x.
Proof.
  unfold js_set_delete. rewrite !list_elem_of_In, filter_In, negb_true_iff.
  rewrite String.eqb_neq. done.
Qed.

Lemma NoDup_js_set_delete s x : NoDup s -> NoDup (js_set_delete s x).
Proof.
  unfold js_set_delete. induction s as [|a s IH]; intros Hnd; simpl; [constructor|].
  apply NoDup_cons in Hnd as [Hn Hnd].
  destruct (negb _); [|auto]. constructor; [|auto].
  intros Hin. apply Hn. apply list_elem_of_In in Hin. apply filter_In in Hin.
  apply list_elem_of_In. tauto.
Qed.

End SessionFacts.

Section SessionExtras.
Import Scoring Session ScoringFacts SessionFacts.

(** Extra (setMatch, scoreQuestion): starting from any draft, calling
    [setMatch(left, right)] for every pair of a match question's key
    makes the question score as correct with full points. *)
Theorem setMatch_all_pairs_correct (q : Question) (prs : list (string * string))
    (prev : SessionAnswer) :
  qtype q = "match"%string -> pairs q = Some prs -> NoDup (map fst prs) ->
  scoreQuestion q (fold_left (fun a kv => setMatch (fst kv) (snd kv) a) prs prev)
  = Some (mkOutcome true (points_or q 1)).
Proof.
  intros Ht Hp Hnd. rewrite score_match_eq by done. cbv zeta.
  rewrite Hp, selectedPairs_fold. simpl default.
  assert (forallb (fun k => opt_str_eqb (obj_get k prs)
            (obj_get k (fold_left (fun o kv => js_obj_set (fst kv) (snd kv) o) prs
                          (default [] (selectedPairs prev))))) (map fst prs) = true) as ->.
  { apply forallb_forall. intros k Hk. apply list_elem_of_In in Hk.
    destruct (obj_get_fold_in prs (default [] (selectedPairs prev)) k Hk)
      as (v & Hv & ->).
    rewrite (obj_get_NoDup prs k v Hnd Hv). apply String.eqb_refl. }
  done.
Qed.

(** Extra (setMatrix, scoreQuestion): when every row of a matrix question
    has a correct column in its key, clicking the correct column of every
    row (in any order, any number of times, starting from any draft)
    makes the question score as correct with full points. *)
Theorem setMatrix_all_rows_correct (q : Question) (rs : list string)
    (sets : list (string * string)) (prev : SessionAnswer) :
  qtype q = "matrix"%string -> rows (matrix q) = Some rs ->
  (forall rid col, (rid, col) ∈ sets -> obj_get rid (correct (matrix q)) = Some col) ->
  (forall rid, rid ∈ rs -> rid ∈ map fst sets) ->
  scoreQuestion q (fold_left (fun a rc => setMatrix (fst rc) (snd rc) a) sets prev)
  = Some (mkOutcome true (points_or q 1)).
Proof.
  intros Ht Hr Hc Hcov. rewrite score_matrix_eq by done. cbv zeta.
  rewrite Hr, selectedMatrix_fold. simpl default.
  assert (forallb (fun rid => opt_str_eqb (obj_get rid (correct (matrix q)))
            (obj_get rid (fold_left (fun o kv => js_obj_set (fst kv) (snd kv) o) sets
                            (default [] (selectedMatrix prev))))) rs = true) as ->.
  { apply forallb_forall. intros rid Hrid. apply list_elem_of_In, Hcov in Hrid.
    destruct (obj_get_fold_in sets (default [] (selectedMatrix prev)) rid Hrid)
      as (v & Hv & ->).
    rewrite (Hc rid v Hv). apply String.eqb_refl. }
  done.
Qed.

(** Extra (toggleSelect): on a single question the selection becomes the
    clicked id alone; on a multi question the selection afterwards has no
    duplicates, holds the clicked id exactly when it did not before, and
    holds every other id exactly when it did before; on other question
    types, or with no current question, the draft is unchanged. *)
Theorem toggleSelect_spec (q : Question) (c : string) (prev : SessionAnswer) :
  (qtype q = "single"%string -> selected (toggleSelect (Some q) c prev) = Some [c])
  /\ (qtype q = "multi"%string ->
      exists sel, selected (toggleSelect (Some q) c prev) = Some sel /\ NoDup sel
      /\ forall y, y ∈ sel <-> (y ∈ selected_ids prev /\ y <> c)
                              \/ (y = c /\ c ∉ selected_ids prev))
  /\ (qtype q <> "single"%string -> qtype q <> "multi"%string ->
      toggleSelect (Some q) c prev = prev)
  /\ toggleSelect None c prev = prev.
Proof.
  split; [|split; [|split]].
  - intros Ht. simpl. by rewrite Ht.
  - intros Ht. simpl. rewrite Ht. simpl.
    destruct (js_has (js_set (default [] (selected prev))) c) eqn:Hc; simpl.
    + eexists; split; [reflexivity|]. split.
      { apply NoDup_js_set_delete, js_set_NoDup. }
      apply js_has_spec in Hc. rewrite elem_of_js_set in Hc.
      intros y. rewrite elem_of_js_set_delete, elem_of_js_set. unfold selected_ids.
      split; [tauto|]. intros [H|[-> H]]; [done|exfalso; apply H; exact Hc].
    + eexists; split; [reflexivity|].
      assert (c ∉ js_set (default [] (selected prev))) as Hn.
      { intros Hin. apply js_has_spec in Hin. congruence. }
      split.
      { apply NoDup_app. split; [apply js_set_NoDup|]. split; [set_solver|].
        apply NoDup_singleton. }
      rewrite elem_of_js_set in Hn. unfold selected_ids.
      intros y. rewrite elem_of_app, elem_of_js_set, list_elem_of_singleton.
      destruct (decide (y = c)); set_solver.
  - intros H1 H2. simpl.
    destruct (String.eqb (qtype q) "single") eqn:E1; [apply String.eqb_eq in E1; done|].
    destruct (String.eqb (qtype q) "multi") eqn:E2; [apply String.eqb_eq in E2; done|].
    done.
  - done.
Qed.

End SessionExtras.

(* ================================================================= *)
(** ** Session building and totals: lemmas *)
(* ================================================================= *)
Module TotalsFacts.
Import Scoring Navigation Session.

Lemma map_submseteq {A B} (f : A -> B) (l1 l2 : list A) :
  l1 ⊆+ l2 -> map f l1 ⊆+ map f l2.
Proof.
  induction 1; simpl.
  - constructor.
  - by constructor.
  - constructor.
  - by constructor.
  - by etrans.
Qed.

Lemma map_prefix {A B} (f : A -> B) (l1 l2 : list A) :
  l1 `prefix_of` l2 -> map f l1 `prefix_of` map f l2.
Proof. intros [k ->]. exists (map f k). by rewrite map_app. Qed.

Lemma js_slice_to_length {A} (l : list A) n :
  Z.of_nat (length (js_slice_to l n))
  = if n <? 0 then Z.max (Z.of_nat (length l) + n) 0
    else Z.min n (Z.of_nat (length l)).
Proof.
  unfold js_slice_to. rewrite length_take.
  destruct (n <? 0) eqn:E; [apply Z.ltb_lt in E|apply Z.ltb_ge in E]; lia.
Qed.

Lemma qMap_fold_lookup (qs : list Question) (m : gmap string Question) id :
  fold_left (fun m q => <[qid q := q]> m) qs m !! id
  = match last (List.filter (fun q => String.eqb (qid q) id) qs) with
    | Some q => Some q
    | None => m !! id
    end.
Proof.
  revert m. induction qs as [|q qs IH]; intros m; simpl; [done|].
  rewrite IH. destruct (String.eqb (qid q) id) eqn:E.
  - apply String.eqb_eq in E. rewrite last_cons.
    destruct (last _); [done|]. subst id. by rewrite lookup_insert_eq.
  - destruct (last _); [done|]. rewrite lookup_insert_ne; [done|].
    intros Heq. subst id. by rewrite String.eqb_refl in E.
Qed.

Lemma case_loop_total sq ans ps t g t' g' :
  case_loop sq ans ps t g = Some (t', g') ->
  t' = fold_left (fun s p => s + points_or p 1) ps t.
Proof.
  revert t g. induction ps as [|p ps IH]; intros t g; simpl.
  - by intros [= -> _].
  - destruct (match obj_get _ _ with Some pAns => sq p pAns | None => _ end)
      as [r|]; [|discriminate].
    apply IH.
Qed.

Lemma score_case_eq q ans :
  qtype q = "case"%string ->
  scoreQuestion q ans
  = match case_loop scoreQuestion ans (case_parts q) 0 0 with
    | None => None
    | Some (total, gained) =>
        Some (mkOutcome ((total <=? gained) && (0 <? total))
                        (Z.min (points_or q total) gained))
    end.
Proof.
  intros Ht. destruct q as [id t pr sc cs prs ord mx ps]. cbn [qtype] in Ht.
  subst t. destruct ps; reflexivity.
Qed.

Lemma possible_noncase q :
  qtype q <> "case"%string -> possible_of q = Some (points_or q 1).
Proof.
  intros Ht. destruct q as [id t pr sc cs prs ord mx ps]. cbn [qtype] in Ht.
  unfold possible_of, points_or. cbn [scoring qtype].
  destruct (String.eqb t "case") eqn:E; [apply String.eqb_eq in E; done|].
  destruct sc as [[m [p|]]|]; reflexivity.
Qed.

Lemma possible_case q pts :
  qtype q = "case"%string -> possible_of q = Some pts ->
  points_or q (fold_left (fun s p => s + points_or p 1) (case_parts q) 0) = pts.
Proof.
  intros Ht. destruct q as [id t pr sc cs prs ord mx ps]. cbn [qtype] in Ht.
  subst t. unfold possible_of, points_or, case_parts. cbn [scoring parts qtype].
  destruct sc as [[m [p|]]|], ps; simpl; congruence.
Qed.

Lemma score_noncase_le q ans r :
  qtype q <> "case"%string -> scoreQuestion q ans = Some r ->
  opoints r <= Z.max 0 (points_or q 1).
Proof.
  intros Ht Hs. destruct q as [id t pr sc cs prs ord mx ps]. cbn [qtype] in Ht.
  cbn [scoreQuestion qtype] in Hs. cbv zeta in Hs.
  destruct (String.eqb t "single");
    [injection Hs as <-; cbn [opoints]; case_match; lia|].
  destruct (String.eqb t "multi").
  { case_match; injection Hs as <-; cbn [opoints]; [case_match|]; lia. }
  destruct (String.eqb t "match");
    [injection Hs as <-; cbn [opoints]; case_match; lia|].
  destruct (String.eqb t "order");
    [injection Hs as <-; cbn [opoints]; case_match; lia|].
  destruct (String.eqb t "matrix");
    [injection Hs as <-; cbn [opoints]; case_match; lia|].
  destruct (String.eqb t "case") eqn:E; [apply String.eqb_eq in E; done|discriminate].
Qed.

(** A scored question never gains more than [totals] counts as possible
    for it, when that is not negative. *)
Lemma score_le_possible q ans r pts :
  scoreQuestion q ans = Some r -> possible_of q = Some pts -> 0 <= pts ->
  opoints r <= pts.
Proof.
  intros Hs Hp Hn. destruct (decide (qtype q = "case"%string)) as [Ht|Ht].
  - rewrite score_case_eq in Hs by done.
    destruct (case_loop _ _ _ _ _) as [[total gained]|] eqn:El; [|discriminate].
    injection Hs as <-. cbn [opoints].
    apply case_loop_total in El. subst total.
    rewrite (possible_case q pts Ht Hp). lia.
  - rewrite possible_noncase in Hp by done. injection Hp as <-.
    pose proof (score_noncase_le q ans r Ht Hs). lia.
Qed.

Lemma totals_loop_le qm answers order g0 p0 g p :
  (forall id q pts, qm !! id = Some q -> possible_of q = Some pts -> 0 <= pts) ->
  g0 <= p0 -> totals_loop qm answers order g0 p0 = Some (g, p) -> g <= p.
Proof.
  intros Hall. revert g0 p0.
  induction order as [|id order IH]; intros g0 p0 Hle; simpl.
  - by intros [= <- <-].
  - destruct (qm !! id) as [q|] eqn:Hq; [|by apply IH].
    destruct (possible_of q) as [pts|] eqn:Hp; [|discriminate].
    pose proof (Hall id q pts Hq Hp) as Hn.
    destruct (obj_get id answers) as [ans|].
    + destruct (scoreQuestion q ans) as [r|] eqn:Hs; [|discriminate].
      apply IH. pose proof (score_le_possible q ans r pts Hs Hp Hn). lia.
    + apply IH. lia.
Qed.

Lemma possible_partless_case q :
  qtype q = "case"%string -> parts q = None ->
  (forall sc, scoring q = Some sc -> points sc = None) ->
  possible_of q = None.
Proof.
  intros Ht Hp Hs. destruct q as [id t pr sc cs prs ord mx ps].
  cbn [qtype parts scoring] in *. subst t ps.
  unfold possible_of. cbn [scoring qtype parts].
  destruct sc as [sc|]; [rewrite (Hs sc eq_refl)|]; reflexivity.
Qed.

Lemma totals_loop_none qm answers order g0 p0 id q :
  qm !! id = Some q -> possible_of q = None -> id ∈ order ->
  totals_loop qm answers order g0 p0 = None.
Proof.
  intros Hq Hp. revert g0 p0.
  induction order as [|id' order IH]; intros g0 p0 Hin; [by apply elem_of_nil in Hin|].
  simpl. destruct (decide (id' = id)) as [->|Hne].
  - by rewrite Hq, Hp.
  - apply elem_of_cons in Hin as [Hin|Hin]; [done|].
    destruct (qm !! id') as [q'|]; [|by apply IH].
    destruct (possible_of q'); [|done].
    destruct (obj_get id' answers); [|by apply IH].
    destruct (scoreQuestion q' s); [by apply IH|done].
Qed.

End TotalsFacts.

Section SessionBuildExtras.
Import Scoring Navigation Session TotalsFacts.

(** Extra (buildInitialSession): with [Math.random] values in [[0, 1)],
    a fresh session takes [numQuestions] question ids ([slice(0, n)]: all
    of them when [n] exceeds the pool, the pool minus its last [|n|]
    when [n] is negative), each at most as often as the pool holds it,
    in pool order when shuffling is off; it starts with no answers, at
    index 0, unfinished, and its cursor is in range exactly when it has
    at least one question. *)
Theorem buildInitialSession_spec (rnd : nat -> Z) (pos : nat) (now : Z)
    (pool : list Question) (s : Settings) :
  (forall n, 0 <= rnd n < 2^53) ->
  let len := Z.of_nat (length pool) in
  let k := if numQuestions s <? 0 then Z.max (len + numQuestions s) 0
           else Z.min (numQuestions s) len in
  exists s0, buildInitialSession rnd pos now pool s = Some s0
  /\ Z.of_nat (length (questionOrder s0)) = k
  /\ questionOrder s0 ⊆+ map qid pool
  /\ (shuffleQuestions s = false -> questionOrder s0 `prefix_of` map qid pool)
  /\ answers s0 = [] /\ currentIdx s0 = 0 /\ finished s0 = false
  /\ startedAt s0 = now
  /\ (cursor_ok s0 <-> 0 < k).
Proof.
  intros Hr len k. unfold buildInitialSession.
  assert (forall ys, length ys = length pool ->
            Z.of_nat (length (map qid (js_slice_to ys (numQuestions s)))) = k) as HL.
  { intros ys Hys. rewrite length_map, js_slice_to_length, Hys. reflexivity. }
  destruct (shuffleQuestions s) eqn:Es.
  - destruct (ShuffleFacts.shuffleArray_spec rnd pos pool Hr) as (ys & pos' & _ & Hsh & Hp).
    rewrite Hsh. eexists; split; [reflexivity|].
    cbn [questionOrder answers currentIdx finished startedAt].
    pose proof (HL ys (Permutation_length Hp)) as HLy.
    split; [done|]. split.
    { unfold js_slice_to. transitivity (map qid ys).
      - apply map_submseteq, submseteq_take.
      - by apply Permutation_submseteq, Permutation_map. }
    split; [discriminate|].
    do 4 (split; [done|]). unfold cursor_ok. cbn [questionOrder currentIdx]. lia.
  - eexists; split; [reflexivity|].
    cbn [questionOrder answers currentIdx finished startedAt].
    pose proof (HL pool eq_refl) as HLy.
    split; [done|]. split.
    { unfold js_slice_to. apply map_submseteq, submseteq_take. }
    split; [intros _; unfold js_slice_to; apply map_prefix, prefix_take|].
    do 4 (split; [done|]). unfold cursor_ok. cbn [questionOrder currentIdx]. lia.
Qed.

(** Extra (qMap): when several questions share an id, [qMap] maps the id
    to the last of them; an id no question has is absent. *)
Theorem qMap_last_wins (qs : list Question) (id : string) :
  qMap qs !! id = last (List.filter (fun q => String.eqb (qid q) id) qs).
Proof.
  unfold qMap. rewrite qMap_fold_lookup. destruct (last _); [done|].
  apply lookup_empty.
Qed.

(** Extra (totals): when every question of [qMap] has a non-negative
    possible score, the gained total of the score summary never exceeds
    the possible total. *)
Theorem totals_gained_le_possible (qm : gmap string Question) (s : PersistedSession)
    (g p : Z) :
  (forall id q pts, qm !! id = Some q -> possible_of q = Some pts -> 0 <= pts) ->
  totals qm s = Some (g, p) -> g <= p.
Proof.
  intros Hall Ht. unfold totals in Ht.
  apply (totals_loop_le qm (answers s) (questionOrder s) 0 0 g p Hall); [lia|done].
Qed.

(** Extra (totals, scoreQuestion): a case question without [parts] and
    without declared points makes the score summary throw as soon as its
    id is in the session's order, although [scoreQuestion] scores it as
    [{correct:false, points:0}] for every answer. *)
Theorem totals_partless_case_throws (qm : gmap string Question) (s : PersistedSession)
    (id : string) (q : Question) :
  qm !! id = Some q -> qtype q = "case"%string -> parts q = None ->
  (forall sc, scoring q = Some sc -> points sc = None) ->
  id ∈ questionOrder s ->
  totals qm s = None /\ (forall ans, scoreQuestion q ans = Some (mkOutcome false 0)).
Proof.
  intros Hq Ht Hp Hs Hin. split.
  - unfold totals. eapply totals_loop_none; [done| |done].
    by apply possible_partless_case.
  - intros ans. rewrite score_case_eq by done.
    unfold case_parts. rewrite Hp. simpl.
    destruct q as [id' t pr sc cs prs ord mx ps]. unfold points_or. cbn [scoring] in *.
    destruct sc as [sc|]; [rewrite (Hs sc eq_refl)|]; reflexivity.
Qed.

End SessionBuildExtras.

(* ================================================================= *)
(** ** The first quiz: lemmas *)
(* ================================================================= *)
Module FirstAppFacts.
Import FirstApp.

Lemma matches_cons q qs o os :
  matches (q :: qs) (o :: os)
  = ((if String.eqb o (dq_answer q) then 1 else 0) + matches qs os)%nat.
Proof. unfold matches. simpl. by destruct (String.eqb o (dq_answer q)). Qed.

Lemma quiz_run_from qs opts :
  forall k st,
  cur st = k -> qfinished st = false -> (k < length qs)%nat ->
  (length qs <= k + length opts)%nat ->
  exists st', quiz_run qs st opts = Some st'
  /\ qfinished st' = true /\ cur st' = (length qs - 1)%nat
  /\ qscore st' = qscore st + Z.of_nat (matches (drop k qs) opts)
  /\ qanswers st' = rev (combine (map dq_id (drop k qs)) opts) ++ qanswers st.
Proof.
  induction opts as [|o os IH]; intros k st Hc Hf Hk Hl; simpl in Hl; [lia|].
  destruct (lookup_lt_is_Some_2 qs k Hk) as [q Hq].
  rewrite (drop_S qs q k Hq), matches_cons. cbn [quiz_run]. rewrite Hf.
  unfold handleAnswer. rewrite Hc, Hq.
  destruct (k + 1 <? length qs)%nat eqn:E.
  - apply Nat.ltb_lt in E.
    edestruct (IH (S k) (mkQuiz (S k)
       (if String.eqb o (dq_answer q) then qscore st + 1 else qscore st)
       (qfinished st) ((dq_id q, o) :: qanswers st)))
      as (st' & Hr & Hf' & Hc' & Hs' & Ha');
      [reflexivity|exact Hf|lia|lia|].
    exists st'. rewrite Hr. do 3 (split; [done|]). split.
    + rewrite Hs'. cbn [qscore]. destruct (String.eqb o _); lia.
    + rewrite Ha'. cbn [qanswers map combine rev]. by rewrite <- app_assoc.
  - apply Nat.ltb_ge in E.
    assert (drop (S k) qs = []) as Hd by (apply drop_ge; lia).
    rewrite Hd. cbn [map combine].
    assert (matches [] os = 0%nat) as Hm by (by destruct os).
    rewrite Hm.
    set (st1 := mkQuiz k _ true _).
    exists st1. split; [destruct os; reflexivity|].
    subst st1; cbn [qfinished cur qscore qanswers]. split; [done|]. split; [lia|].
    split; [destruct (String.eqb o _); lia|].
    destruct os; reflexivity.
Qed.

End FirstAppFacts.

Section FirstAppExtras.
Import FirstApp FirstAppFacts.

(** Extra (handleAnswer): clicking an option for each question of a
    non-empty quiz, in order, finishes it on the last question; the score
    is the number of clicks equal to their question's answer, the answers
    are recorded newest first as [(question id, option)], and further
    clicks are ignored. *)
Theorem quiz_run_scores (qs : list DQuestion) (opts : list string) :
  qs <> [] -> (length qs <= length opts)%nat ->
  exists st, quiz_run qs quiz_init opts = Some st
  /\ qfinished st = true /\ cur st = (length qs - 1)%nat
  /\ qscore st = Z.of_nat (matches qs opts)
  /\ qanswers st = rev (combine (map dq_id qs) opts).
Proof.
  intros Hne Hl.
  destruct (quiz_run_from qs opts 0 quiz_init) as (st & H1 & H2 & H3 & H4 & H5);
    try done.
  - destruct qs; [done|simpl; lia].
  - exists st. rewrite H4, H5, drop_0, app_nil_r. done.
Qed.

End FirstAppExtras.

(* ================================================================= *)
(** ** The trainer: lemmas *)
(* ================================================================= *)
Module TrainerFacts.
Import BankModel Trainer.

Lemma count_perm {A} (f : A -> bool) (l1 l2 : list A) :
  l1 ≡ₚ l2 -> length (List.filter f l1) = length (List.filter f l2).
Proof.
  induction 1; simpl.
  - done.
  - destruct (f x); simpl; lia.
  - destruct (f x), (f y); simpl; lia.
  - lia.
Qed.

Lemma values_count_insert_None (f : Attempt -> bool) (m : gmap string Attempt) i x :
  m !! i = None ->
  length (List.filter f (attempt_values (<[i:=x]> m)))
  = ((if f x then 1 else 0) + length (List.filter f (attempt_values m)))%nat.
Proof.
  intros Hi. unfold attempt_values.
  rewrite (count_perm f _ _ (Permutation_map snd (map_to_list_insert m i x Hi))).
  simpl. by destruct (f x).
Qed.

Lemma values_count_insert_Some (f : Attempt -> bool) (m : gmap string Attempt) i x x0 :
  m !! i = Some x0 ->
  (length (List.filter f (attempt_values (<[i:=x]> m))) + (if f x0 then 1 else 0))%nat
  = (length (List.filter f (attempt_values m)) + (if f x then 1 else 0))%nat.
Proof.
  intros Hi.
  rewrite <- (insert_delete_eq m i x).
  rewrite <- (insert_delete_id m i x0 Hi) at 2.
  rewrite !values_count_insert_None by apply lookup_delete_eq. lia.
Qed.

Lemma answeredCount_insert (m : gmap string Attempt) i x :
  answeredCount (<[i:=x]> m)
  = (answeredCount m + match m !! i with Some _ => 0 | None => 1 end)%nat.
Proof.
  unfold answeredCount. rewrite !length_map_to_list, map_size_insert.
  destruct (m !! i); simpl; lia.
Qed.

Definition cnt (t : string) (ts : list string) : nat :=
  length (List.filter (String.eqb t) ts).

Lemma cnt_cons t x ts :
  cnt t (x :: ts) = ((if String.eqb x t then 1 else 0) + cnt t ts)%nat.
Proof.
  unfold cnt. cbn [List.filter]. rewrite (String.eqb_sym t x).
  by destruct (String.eqb x t).
Qed.

Lemma tag_occ_cons t q qs :
  tag_occ t (q :: qs) = (cnt t (default [] (bq_tags q)) + tag_occ t qs)%nat.
Proof. unfold tag_occ, cnt. simpl. by rewrite List.filter_app, length_app. Qed.

Lemma tag_correct_cons t a q qs :
  tag_correct t a (q :: qs)
  = ((if answered_correctly a q then cnt t (default [] (bq_tags q)) else 0)
     + tag_correct t a qs)%nat.
Proof.
  unfold tag_correct, cnt. simpl. rewrite List.filter_app, length_app.
  by destruct (answered_correctly a q).
Qed.

Lemma tag_correct_le t a qs : (tag_correct t a qs <= tag_occ t qs)%nat.
Proof.
  induction qs as [|q qs IH]; [done|].
  rewrite tag_occ_cons, tag_correct_cons. destruct (answered_correctly a q); lia.
Qed.

Lemma cov_step_lookup a q m x t :
  cov_step a q m x !! t
  = if String.eqb x t
    then Some (fst (default (0, 0) (m !! t)) + 1,
               snd (default (0, 0) (m !! t)) + if answered_correctly a q then 1 else 0)
    else m !! t.
Proof.
  unfold cov_step, answered_correctly.
  destruct (String.eqb_spec x t) as [<-|Hne].
  - destruct (default (0, 0) (m !! x)) as [tot cor].
    rewrite lookup_insert_eq. simpl.
    destruct (a !! bq_id q) as [a0|]; [destruct (a_isCorrect a0)|]; do 2 f_equal; lia.
  - destruct (default (0, 0) (m !! x)) as [tot cor].
    by rewrite lookup_insert_ne.
Qed.

Lemma cov_inner a q t ts m :
  fold_left (cov_step a q) ts m !! t
  = if (cnt t ts =? 0)%nat then m !! t
    else Some (fst (default (0, 0) (m !! t)) + Z.of_nat (cnt t ts),
               snd (default (0, 0) (m !! t))
               + if answered_correctly a q then Z.of_nat (cnt t ts) else 0).
Proof.
  revert m. induction ts as [|x ts IH]; intros m; [done|].
  cbn [fold_left]. rewrite IH, !cov_step_lookup, cnt_cons.
  destruct (String.eqb x t).
  - destruct (Nat.eqb_spec (cnt t ts) 0) as [H0|H0]; rewrite ?H0; cbn [Nat.add Nat.eqb];
      [|destruct (Nat.eqb_spec (1 + cnt t ts) 0); [lia|]];
      destruct (default (0, 0) (m !! t)) as [p1 p2]; simpl;
      destruct (answered_correctly a q); do 2 f_equal; lia.
  - done.
Qed.

Lemma cov_outer a t qs m :
  fold_left (fun m q => fold_left (cov_step a q) (default [] (bq_tags q)) m) qs m !! t
  = if (tag_occ t qs =? 0)%nat then m !! t
    else Some (fst (default (0, 0) (m !! t)) + Z.of_nat (tag_occ t qs),
               snd (default (0, 0) (m !! t)) + Z.of_nat (tag_correct t a qs)).
Proof.
  revert m. induction qs as [|q qs IH]; intros m; [done|].
  cbn [fold_left]. rewrite IH, cov_inner, tag_occ_cons, tag_correct_cons.
  pose proof (tag_correct_le t a qs) as Hle.
  set (c := cnt t (default [] (bq_tags q))) in *.
  set (o := tag_occ t qs) in *. set (r := tag_correct t a qs) in *.
  destruct (Nat.eqb_spec c 0) as [H1|H1]; destruct (Nat.eqb_spec o 0) as [H2|H2];
    destruct (Nat.eqb_spec (c + o) 0) as [H3|H3]; try lia; [done| | |];
    destruct (answered_correctly a q);
    destruct (m !! t) as [[p1 p2]|]; simpl; do 2 f_equal; lia.
Qed.

Lemma indexOf_found x l :
  x ∈ l -> 0 <= Navigation.indexOf x l /\ l !! Z.to_nat (Navigation.indexOf x l) = Some x.
Proof.
  induction l as [|y l IH]; intros Hin; [by apply elem_of_nil in Hin|].
  simpl. destruct (String.eqb_spec x y) as [->|Hne]; [done|].
  apply elem_of_cons in Hin as [Hin|Hin]; [done|].
  destruct (IH Hin) as [H0 Hl].
  destruct (Navigation.indexOf x l <? 0) eqn:E; [apply Z.ltb_lt in E; lia|].
  split; [lia|]. rewrite Z2Nat.inj_add by lia. simpl.
  by rewrite Nat.add_1_r.
Qed.

Lemma indexOf_missing x l : x ∉ l -> Navigation.indexOf x l = -1.
Proof.
  induction l as [|y l IH]; intros Hn; [done|]. simpl.
  destruct (String.eqb_spec x y) as [->|Hne]; [by destruct Hn; left|].
  rewrite IH; [done|]. intros Hin. apply Hn. by right.
Qed.

Lemma questionOrder_spec bank randomizeQ seed :
  exists qo, questionOrder bank randomizeQ seed = Some qo
  /\ qo ≡ₚ map bq_id (questions bank)
  /\ (randomizeQ = false -> qo = map bq_id (questions bank)).
Proof.
  unfold questionOrder. destruct randomizeQ.
  - destruct (ShuffleFacts.seededShuffle_spec (map bq_id (questions bank))
                (seed ++ "::Q")%string) as (ys & s' & _ & Hs & Hp).
    exists ys. rewrite Hs. split; [done|]. split; [done|discriminate].
  - by exists (map bq_id (questions bank)).
Qed.

Lemma drill_ids_spec bank tags id :
  id ∈ drill_ids bank tags <->
  exists q, q ∈ questions bank /\ bq_id q = id
            /\ exists t, t ∈ tags /\ t ∈ default [] (bq_tags q).
Proof.
  unfold drill_ids. rewrite list_elem_of_In, in_map_iff. split.
  - intros (q & <- & Hq). apply filter_In in Hq as [Hq Hex].
    apply existsb_exists in Hex as (t & Ht & Hh).
    apply ScoringFacts.js_has_spec in Hh.
    exists q. rewrite list_elem_of_In. split; [done|]. split; [done|].
    exists t. split; [done|]. by apply list_elem_of_In.
  - intros (q & Hq & <- & t & Ht & Htq). exists q. split; [done|].
    apply filter_In. rewrite <- list_elem_of_In. split; [done|].
    apply existsb_exists. exists t. rewrite <- list_elem_of_In.
    split; [done|]. by apply ScoringFacts.js_has_spec.
Qed.

Lemma seed_fold_range l n0 :
  0 <= n0 < 2^32 ->
  0 <= fold_left (fun n c => Shuffle.to_uint32 (n * 31 + Z.of_nat (nat_of_ascii c))) l n0 < 2^32.
Proof.
  revert n0. induction l as [|c l IH]; intros n0 Hn; [done|].
  simpl. apply IH, ShuffleFacts.to_uint32_range.
Qed.

End TrainerFacts.

Section TrainerExtras.
Import BankModel Trainer TrainerFacts.

(** Extra (choose): answering the current question records the attempt
    [{questionId, choiceIds: [cid], isCorrect, flagged}] under its id,
    where [isCorrect] holds exactly when the first choice with id [cid]
    is marked correct and the flag is the one the question had; other
    questions' attempts are untouched, and the answered count grows by
    one exactly when the question had no attempt. *)
Theorem choose_spec (q : BQuestion) (cid : string) (att : gmap string Attempt) :
  let att' := choose (Some q) cid att in
  (exists ic, att' !! bq_id q = Some (mkAttempt (bq_id q) [cid] ic (att !! bq_id q ≫= flagged))
   /\ (ic = true <-> exists c, List.find (fun c => String.eqb (bc_id c) cid) (bq_choices q) = Some c
                               /\ bc_correct c = true))
  /\ (forall k, k <> bq_id q -> att' !! k = att !! k)
  /\ answeredCount att' = (answeredCount att + match att !! bq_id q with Some _ => 0 | None => 1 end)%nat.
Proof.
  intros att'. subst att'. unfold choose. split; [|split].
  - eexists. split.
    + rewrite lookup_insert_eq. by destruct (att !! bq_id q).
    + destruct (List.find _ _) as [c|].
      * split; [intros H; by exists c|]. by intros (c' & [= <-] & H).
      * split; [discriminate|]. by intros (c' & ? & _).
  - intros k Hk. by rewrite lookup_insert_ne by congruence.
  - apply answeredCount_insert.
Qed.

(** Extra (toggleFlag): flagging a question without an attempt creates
    the attempt [{questionId, choiceIds: [], isCorrect: false, flagged:
    true}], so it then counts as answered and as incorrect, while the
    correct count does not change. *)
Theorem toggleFlag_unanswered (q : BQuestion) (att : gmap string Attempt) :
  att !! bq_id q = None ->
  let att' := toggleFlag (Some q) att in
  att' !! bq_id q = Some (mkAttempt (bq_id q) [] false (Some true))
  /\ answeredCount att' = S (answeredCount att)
  /\ incorrectCount att' = S (incorrectCount att)
  /\ correctCount att' = correctCount att.
Proof.
  intros Hn att'. subst att'. unfold toggleFlag. rewrite Hn. cbn [default].
  split; [by rewrite lookup_insert_eq|]. split.
  - rewrite answeredCount_insert, Hn. lia.
  - unfold incorrectCount, correctCount.
    rewrite !values_count_insert_None by done. cbn. done.
Qed.

(** Extra (toggleFlag): on a question with an attempt, the flag's
    truthiness flips, the choice and correctness are kept, the answered,
    correct and incorrect counts do not change, other attempts are
    untouched, and a second toggle restores the truthiness. *)
Theorem toggleFlag_answered (q : BQuestion) (att : gmap string Attempt) (a : Attempt) :
  att !! bq_id q = Some a ->
  let att' := toggleFlag (Some q) att in
  att' !! bq_id q = Some (mkAttempt (a_questionId a) (choiceIds a) (a_isCorrect a)
                                    (Some (negb (truthy (flagged a)))))
  /\ answeredCount att' = answeredCount att
  /\ correctCount att' = correctCount att
  /\ incorrectCount att' = incorrectCount att
  /\ (forall k, k <> bq_id q -> att' !! k = att !! k)
  /\ option_map (fun b => truthy (flagged b)) (toggleFlag (Some q) att' !! bq_id q)
     = Some (truthy (flagged a)).
Proof.
  intros Ha att'. subst att'. unfold toggleFlag at 1 2 3 4 5. rewrite Ha. cbn [default id].
  split; [by rewrite lookup_insert_eq|]. split; [|split; [|split; [|split]]].
  - rewrite answeredCount_insert, Ha. lia.
  - unfold correctCount. pose proof (values_count_insert_Some a_isCorrect att (bq_id q)
      (mkAttempt (a_questionId a) (choiceIds a) (a_isCorrect a) (Some (negb (truthy (flagged a))))) a Ha)
      as H. cbn [a_isCorrect] in H. lia.
  - unfold incorrectCount.
    pose proof (values_count_insert_Some (fun b => negb (a_isCorrect b)) att (bq_id q)
      (mkAttempt (a_questionId a) (choiceIds a) (a_isCorrect a) (Some (negb (truthy (flagged a))))) a Ha)
      as H. cbn [a_isCorrect] in H. lia.
  - intros k Hk. by rewrite lookup_insert_ne by congruence.
  - unfold toggleFlag. cbn [default id]. rewrite !lookup_insert_eq, Ha. cbn.
    by destruct (flagged a) as [[]|].
Qed.

(** Extra (coverage): for every tag, [coverage] has an entry exactly when
    the tag occurs in the bank's tag lists; its total is the number of
    occurrences and its correct count the number of occurrences on
    questions whose attempt is correct, so correct never exceeds total. *)
Theorem coverage_counts (qs : list BQuestion) (att : gmap string Attempt) (t : string) :
  coverage qs att !! t
  = (if (tag_occ t qs =? 0)%nat then None
     else Some (Z.of_nat (tag_occ t qs), Z.of_nat (tag_correct t att qs)))
  /\ (tag_correct t att qs <= tag_occ t qs)%nat.
Proof.
  split; [|apply tag_correct_le].
  unfold coverage. rewrite cov_outer, lookup_empty. cbn [default fst snd].
  destruct (tag_occ t qs =? 0)%nat; [done|]. do 2 f_equal; lia.
Qed.

(** Extra (startDrill): with no question carrying a selected tag, the
    drill changes nothing; otherwise it sets the order to the matching
    ids (a permutation of them, the bank order when not randomized), the
    index to 0, the attempts to empty and starts the session, resetting
    the timer only in exam mode. The matching ids are those of the
    questions with at least one selected tag. *)
Theorem startDrill_spec (bank : Bank) (randomizeQ : bool) (seed : string) (mode : Mode)
    (durationMin : Z) (tags : list string) (st : TState) :
  (drill_ids bank tags = [] -> startDrill bank randomizeQ seed mode durationMin tags st = Some st)
  /\ (drill_ids bank tags <> [] ->
      exists st', startDrill bank randomizeQ seed mode durationMin tags st = Some st'
      /\ t_order st' ≡ₚ drill_ids bank tags
      /\ (randomizeQ = false -> t_order st' = drill_ids bank tags)
      /\ t_index st' = 0 /\ t_attempts st' = ∅ /\ t_started st' = true
      /\ t_timerMs st' = match mode with Exam => durationMin * 60 * 1000 | Practice => t_timerMs st end
      /\ t_paused st' = match mode with Exam => false | Practice => t_paused st end)
  /\ (forall id, id ∈ drill_ids bank tags <->
        exists q, q ∈ questions bank /\ bq_id q = id
                  /\ exists t, t ∈ tags /\ t ∈ default [] (bq_tags q)).
Proof.
  split; [|split; [|apply drill_ids_spec]].
  - intros H. unfold startDrill. by rewrite H.
  - intros Hne. unfold startDrill. destruct (drill_ids bank tags) as [|i0 ids] eqn:Hd; [done|].
    destruct randomizeQ.
    + destruct (ShuffleFacts.seededShuffle_spec (i0 :: ids) (seed ++ "::DRILL")%string)
        as (ys & s' & _ & Hs & Hp).
      rewrite Hs. eexists. split; [reflexivity|]. cbn. split; [done|].
      split; [discriminate|]. done.
    + eexists. split; [reflexivity|]. cbn. done.
Qed.

(** Extra (startDrill, questionsView): after a drill starts, the question
    shown is [questionsView[0]], the first id of the bank's own question
    order, whatever tags were chosen: with questions in bank order it is
    the bank's first question, while the drill's order starts with the
    first matching one. *)
Theorem drill_displays_bank_order (bank : Bank) (randomizeQ : bool) (seed : string)
    (mode : Mode) (durationMin : Z) (tags : list string) (st st' : TState) :
  drill_ids bank tags <> [] ->
  startDrill bank randomizeQ seed mode durationMin tags st = Some st' ->
  current_id bank randomizeQ seed st' = questionOrder bank randomizeQ seed ≫= head
  /\ (randomizeQ = false ->
      current_id bank randomizeQ seed st' = head (map bq_id (questions bank))
      /\ head (t_order st') = head (drill_ids bank tags)).
Proof.
  intros Hne Hs.
  destruct (proj1 (proj2 (startDrill_spec bank randomizeQ seed mode durationMin tags st)) Hne)
    as (st1 & Hs1 & _ & Hord & Hidx & _).
  rewrite Hs in Hs1. injection Hs1 as <-.
  destruct (questionOrder_spec bank randomizeQ seed) as (qo & Hq & _ & Hq').
  unfold current_id. rewrite Hq, Hidx. cbn. split.
  - by destruct qo.
  - intros Hr. rewrite (Hq' Hr), (Hord Hr). by destruct (map bq_id (questions bank)).
Qed.

(** Extra (start): starting a session sets the order to the bank's ids (a
    permutation of them, the bank order when not randomized), the index
    to 0 and the attempts to empty; the question shown is then the first
    of that order. *)
Theorem start_spec (bank : Bank) (randomizeQ : bool) (seed : string) (mode : Mode)
    (durationMin : Z) (st : TState) :
  exists st', start bank randomizeQ seed mode durationMin st = Some st'
  /\ t_order st' ≡ₚ map bq_id (questions bank)
  /\ (randomizeQ = false -> t_order st' = map bq_id (questions bank))
  /\ t_index st' = 0 /\ t_attempts st' = ∅ /\ t_started st' = true
  /\ current_id bank randomizeQ seed st' = head (t_order st').
Proof.
  destruct (questionOrder_spec bank randomizeQ seed) as (qo & Hq & Hp & Hq').
  unfold start. rewrite Hq. eexists. split; [reflexivity|]. cbn.
  split; [done|]. split; [done|]. do 3 (split; [done|]).
  unfold current_id. rewrite Hq. cbn. by destruct qo.
Qed.

(** Extra (index buttons): from an index in range, First, Prev, Next, a
    grid cell and a jump to an id of the grid keep the index in range, the
    jump landing on the first position of that id; a jump to an id that
    is not in the grid sets the index to -1. *)
Theorem trainer_nav_range (order viewIds : list string) (ev : TNavEvent) (i : Z) :
  0 <= i < Z.of_nat (length (grid_ids order viewIds)) ->
  tnav_offered order viewIds ev ->
  0 <= tnav_step order viewIds ev i < Z.of_nat (length (grid_ids order viewIds))
  /\ (forall id, ev = TJumpAttempt id ->
      grid_ids order viewIds !! Z.to_nat (tnav_step order viewIds ev i) = Some id)
  /\ (forall id, id ∉ grid_ids order viewIds ->
      tnav_step order viewIds (TJumpAttempt id) i = -1).
Proof.
  intros Hi Hoff. split; [|split].
  - destruct ev as [| | |k|id]; cbn [tnav_step tnav_offered] in *; try lia.
    destruct (indexOf_found id _ Hoff) as [H0 Hl].
    apply lookup_lt_Some in Hl. lia.
  - intros id ->. cbn [tnav_step tnav_offered] in *.
    by destruct (indexOf_found id _ Hoff).
  - intros id Hn. cbn [tnav_step]. by apply indexOf_missing.
Qed.

(** Extra (timer tick): from a non-negative time, [k] ticks of the exam
    timer leave [max(0, ms - 1000 k)], which is 0 exactly when [ms] is at
    most [1000 k]. *)
Theorem timer_ticks (ms : Z) (k : nat) :
  0 <= ms ->
  Nat.iter k tick ms = Z.max 0 (ms - 1000 * Z.of_nat k)
  /\ (Nat.iter k tick ms = 0 <-> ms <= 1000 * Z.of_nat k).
Proof.
  intros Hms.
  assert (Nat.iter k tick ms = Z.max 0 (ms - 1000 * Z.of_nat k)) as H.
  { induction k as [|k IH]; [simpl; lia|].
    rewrite Nat.iter_succ, IH. unfold tick. lia. }
  split; [done|]. rewrite H. lia.
Qed.

(** Extra (seedFromString, mulberry32): every string seeds the generator
    with an integer in [[1, 2^32)] (an all-zero hash becomes 1), and every
    draw of the generator is a numerator in [[0, 2^32)], so the returned
    value lies in [[0, 1)]. *)
Theorem seed_and_draw_range (s : string) (seed : Z) :
  1 <= Shuffle.seedFromString s < 2^32
  /\ 0 <= snd (Shuffle.mulberry32_next seed) < 2^32.
Proof.
  split; [|apply ShuffleFacts.mulberry32_next_range].
  unfold Shuffle.seedFromString.
  pose proof (seed_fold_range (list_ascii_of_string s) 0 ltac:(lia)) as H.
  match goal with |- context [(?n =? 0)] => destruct (Z.eqb_spec n 0) end; lia.
Qed.

End TrainerExtras.

(* ================================================================= *)
(** ** Concrete instances of the extra properties *)
(* ================================================================= *)
Section ExtraWitnesses.
Import Scoring Session.
Local Open Scope string_scope.

Lemma single_first_correct_only_witness :
  exists ok,
    scoreQuestion (mkChoiceQ "s1" "single" None
                     [mkChoice "a" "A" (Some false); mkChoice "b" "B" (Some true);
                      mkChoice "c" "C" (Some true)])
                  (selectAnswer "s1" ["c"])
    = Some (mkOutcome ok (if ok then 1 else 0))
    /\ (ok = true <-> exists c,
          List.find (fun c => truthy (isCorrect c))
            [mkChoice "a" "A" (Some false); mkChoice "b" "B" (Some true);
             mkChoice "c" "C" (Some true)] = Some c
          /\ Some ["c"%string] = Some [choice_id c]).
Proof. apply single_first_correct_only. reflexivity. Defined.

Lemma order_check_exact_witness :
  exists ok,
    scoreQuestion (mkQuestion "o1" "order" "" None [] None ["x"; "y"] no_matrix None)
                  (mkAnswer "o1" None None (Some ["y"; "x"]) None None None 0 0)
    = Some (mkOutcome ok (if ok then 1 else 0))
    /\ (ok = true <-> ["x"; "y"]%string = ["y"; "x"]%string).
Proof.
  apply order_check_exact.
  - reflexivity.
  - apply (bool_decide_unpack _). vm_compute. exact I.
  - apply (bool_decide_unpack _). vm_compute. exact I.
Defined.

Lemma unchecked_match_matrix_full_marks_witness :
  scoreQuestion (mkQuestion "mt" "match" "" (Some (mkScoring None (Some 4))) [] (Some [])
                   [] no_matrix None)
                (selectAnswer "mt" [])
  = Some (mkOutcome true 4).
Proof.
  apply unchecked_match_matrix_full_marks. left. split; reflexivity.
Defined.

Lemma setMatch_all_pairs_correct_witness :
  scoreQuestion
    (mkQuestion "mt" "match" "" None [] (Some [("l1", "r1"); ("l2", "r2")]) [] no_matrix None)
    (fold_left (fun a kv => setMatch (fst kv) (snd kv) a)
       [("l1", "r1"); ("l2", "r2")]%string (selectAnswer "mt" []))
  = Some (mkOutcome true 1).
Proof.
  apply setMatch_all_pairs_correct.
  - reflexivity.
  - reflexivity.
  - apply (bool_decide_unpack _). vm_compute. exact I.
Defined.

Lemma setMatrix_all_rows_correct_witness :
  scoreQuestion
    (mkQuestion "mx" "matrix" "" None [] None []
       (mkMatrix (Some ["r1"; "r2"]) ["c1"; "c2"] [("r1", "c2"); ("r2", "c1")]) None)
    (fold_left (fun a rc => setMatrix (fst rc) (snd rc) a)
       [("r2", "c1"); ("r1", "c2")]%string (selectAnswer "mx" []))
  = Some (mkOutcome true 1).
Proof.
  apply setMatrix_all_rows_correct with (rs := ["r1"; "r2"]%string).
  - reflexivity.
  - reflexivity.
  - intros rid col H.
    repeat (apply elem_of_cons in H as [H|H]; [injection H as -> ->; reflexivity|]).
    by apply elem_of_nil in H.
  - simpl. intros rid H.
    repeat (apply elem_of_cons in H as [->|H];
            [repeat (first [apply elem_of_cons; left; reflexivity
                           | apply elem_of_cons; right])|]).
    by apply elem_of_nil in H.
Defined.

Lemma toggleSelect_spec_witness :
  exists sel, selected (toggleSelect (Some ex_multi) "a" ex_multi_ans) = Some sel /\ NoDup sel
  /\ forall y, y ∈ sel <-> (y ∈ selected_ids ex_multi_ans /\ y <> "a"%string)
                          \/ (y = "a"%string /\ "a"%string ∉ selected_ids ex_multi_ans).
Proof.
  apply (proj1 (proj2 (toggleSelect_spec ex_multi "a" ex_multi_ans))). reflexivity.
Defined.

Lemma buildInitialSession_spec_witness :
  exists s0, buildInitialSession (fun _ => 0) 0 5 [ex_multi; ex_case] (mkSettings 1 true)
             = Some s0
  /\ Z.of_nat (length (Navigation.questionOrder s0)) = 1
  /\ Navigation.cursor_ok s0.
Proof.
  destruct (buildInitialSession_spec (fun _ => 0) 0 5 [ex_multi; ex_case] (mkSettings 1 true))
    as (s0 & H1 & H2 & _ & _ & _ & _ & _ & _ & H3).
  - intros n. lia.
  - exists s0. split; [exact H1|]. split; [exact H2|]. apply H3. vm_compute. reflexivity.
Defined.

Lemma totals_gained_le_possible_witness :
  exists g p, totals (qMap [ex_multi])
                (Navigation.mkSession ["m1"] [("m1", ex_multi_ans)] 0 0 false)
              = Some (g, p) /\ g <= p.
Proof.
  exists 0, 3. split; [vm_compute; reflexivity|].
  apply (totals_gained_le_possible (qMap [ex_multi])
           (Navigation.mkSession ["m1"] [("m1", ex_multi_ans)] 0 0 false)).
  - intros id q pts Hq Hp. unfold qMap in Hq. simpl in Hq.
    apply lookup_insert_Some in Hq as [[_ <-]|[_ Hq]].
    + vm_compute in Hp. injection Hp as <-. lia.
    + by rewrite lookup_empty in Hq.
  - vm_compute. reflexivity.
Defined.

Lemma totals_partless_case_throws_witness :
  totals (qMap [mkQuestion "c0" "case" "" None [] None [] no_matrix None])
         (Navigation.mkSession ["c0"] [] 0 0 false) = None
  /\ forall ans, scoreQuestion (mkQuestion "c0" "case" "" None [] None [] no_matrix None) ans
                 = Some (mkOutcome false 0).
Proof.
  apply (totals_partless_case_throws _ _ "c0").
  - vm_compute. reflexivity.
  - reflexivity.
  - reflexivity.
  - intros sc [=].
  - apply elem_of_cons. left. reflexivity.
Defined.

End ExtraWitnesses.

Section ExtraWitnesses2.
Import FirstApp BankModel Trainer.
Local Open Scope string_scope.

Lemma quiz_run_scores_witness :
  exists st, quiz_run defaultQuestions quiz_init ["Model view"; "DATEYEAR()"; "YEAR()"]
             = Some st
  /\ qfinished st = true /\ cur st = 1%nat
  /\ qscore st = 1
  /\ qanswers st = [(2, "DATEYEAR()"); (1, "Model view")]%string.
Proof.
  apply quiz_run_scores.
  - discriminate.
  - simpl. lia.
Defined.

Lemma choose_spec_witness :
  choose (Some (mkBQuestion "q1" "P" [mkBChoice "a" "A" false; mkBChoice "b" "B" true]
                  None (Some ["T"])))
         "b" {[ "q2" := mkAttempt "q2" ["x"] true None ]} !! "q2"
  = Some (mkAttempt "q2" ["x"] true None).
Proof.
  rewrite (proj1 (proj2 (choose_spec
             (mkBQuestion "q1" "P" [mkBChoice "a" "A" false; mkBChoice "b" "B" true]
                None (Some ["T"]))
             "b" {[ "q2" := mkAttempt "q2" ["x"] true None ]})) "q2").
  - reflexivity.
  - discriminate.
Defined.

Lemma toggleFlag_unanswered_witness :
  incorrectCount (toggleFlag (Some (mkBQuestion "q1" "P" [] None None)) ∅) = 1%nat.
Proof.
  destruct (toggleFlag_unanswered (mkBQuestion "q1" "P" [] None None) ∅)
    as (_ & _ & H & _).
  - reflexivity.
  - rewrite H. reflexivity.
Defined.

Lemma toggleFlag_answered_witness :
  correctCount (toggleFlag (Some (mkBQuestion "q1" "P" [] None None))
                  {[ "q1" := mkAttempt "q1" ["b"] true None ]}) = 1%nat.
Proof.
  destruct (toggleFlag_answered (mkBQuestion "q1" "P" [] None None)
              {[ "q1" := mkAttempt "q1" ["b"] true None ]} (mkAttempt "q1" ["b"] true None))
    as (_ & _ & H & _).
  - reflexivity.
  - rewrite H. reflexivity.
Defined.

Lemma startDrill_spec_witness :
  exists st', startDrill
                (mkBank (Some "B") None None
                   [mkBQuestion "q1" "P1" [] None (Some ["A"]);
                    mkBQuestion "q2" "P2" [] None (Some ["B"; "C"])])
                false "s" Exam 30 ["B"] (mkT [] 0 ∅ false 0 false) = Some st'
  /\ t_order st' = ["q2"%string] /\ t_timerMs st' = 1800000.
Proof.
  destruct (proj1 (proj2 (startDrill_spec
              (mkBank (Some "B") None None
                 [mkBQuestion "q1" "P1" [] None (Some ["A"]);
                  mkBQuestion "q2" "P2" [] None (Some ["B"; "C"])])
              false "s" Exam 30 ["B"] (mkT [] 0 ∅ false 0 false))))
    as (st' & H1 & _ & H3 & _ & _ & _ & H7 & _).
  - vm_compute. discriminate.
  - exists st'. split; [exact H1|]. split; [exact (H3 eq_refl)|]. exact H7.
Defined.

Lemma drill_displays_bank_order_witness :
  exists st', startDrill
                (mkBank (Some "B") None None
                   [mkBQuestion "q1" "P1" [] None (Some ["A"]);
                    mkBQuestion "q2" "P2" [] None (Some ["B"])])
                false "s" Practice 30 ["B"] (mkT [] 0 ∅ false 0 false) = Some st'
  /\ current_id (mkBank (Some "B") None None
                   [mkBQuestion "q1" "P1" [] None (Some ["A"]);
                    mkBQuestion "q2" "P2" [] None (Some ["B"])]) false "s" st'
     = Some "q1"%string
  /\ head (t_order st') = Some "q2"%string.
Proof.
  exists (mkT ["q2"] 0 ∅ true 0 false). split; [reflexivity|].
  destruct (drill_displays_bank_order
              (mkBank (Some "B") None None
                 [mkBQuestion "q1" "P1" [] None (Some ["A"]);
                  mkBQuestion "q2" "P2" [] None (Some ["B"])])
              false "s" Practice 30 ["B"] (mkT [] 0 ∅ false 0 false)
              (mkT ["q2"] 0 ∅ true 0 false)) as [_ H].
  - vm_compute. discriminate.
  - reflexivity.
  - destruct (H eq_refl) as [H1 H2]. rewrite H1, H2. split; reflexivity.
Defined.

Lemma start_spec_witness :
  exists st', start (mkBank (Some "B") None None
                       [mkBQuestion "q1" "P1" [] None None; mkBQuestion "q2" "P2" [] None None])
                    false "s" Practice 30 (mkT [] 0 ∅ false 0 false) = Some st'
  /\ t_order st' = ["q1"; "q2"]%string.
Proof.
  destruct (start_spec (mkBank (Some "B") None None
                          [mkBQuestion "q1" "P1" [] None None; mkBQuestion "q2" "P2" [] None None])
              false "s" Practice 30 (mkT [] 0 ∅ false 0 false))
    as (st' & H1 & _ & H3 & _).
  exists st'. split; [exact H1|]. exact (H3 eq_refl).
Defined.

Lemma trainer_nav_range_witness :
  0 <= tnav_step ["a"; "b"; "c"] [] (TJumpAttempt "b") 0 < 3
  /\ ["a"; "b"; "c"]%string !! Z.to_nat (tnav_step ["a"; "b"; "c"] [] (TJumpAttempt "b") 0)
     = Some "b"%string.
Proof.
  edestruct (trainer_nav_range ["a"; "b"; "c"] [] (TJumpAttempt "b") 0) as (H1 & H2 & _).
  - simpl. lia.
  - simpl. apply elem_of_cons. right. apply elem_of_cons. left. reflexivity.
  - split; [exact H1|]. exact (H2 "b"%string eq_refl).
Defined.

Lemma timer_ticks_witness : Nat.iter 3 tick 2500 = 0.
Proof.
  edestruct (timer_ticks 2500 3) as [_ H].
  - lia.
  - apply H. lia.
Defined.

End ExtraWitnesses2.
